(** * Indicator engine of the crypto analysis dashboard (src/main.py)

    [main.py] imports the indicator functions from a module
    [technical_indicators] ([ti.calculate_ma], [ti.calculate_ema],
    [ti.calculate_rsi], [ti.calculate_macd], [ti.calculate_bollinger_bands],
    [ti.identify_support_resistance]) whose source is not part of [src/].
    Those functions are modelled from the specification of the indicator
    engine; the parts of [main.py] that consume them ([plot_with_indicators]
    and the "Technical Analysis Summary" of [main]) are modelled from the
    source.

    Prices are real numbers (the specification's "finite real numbers"); an
    indicator series is a list of [option R], [None] being the "undefined"
    (NaN) marker.  Python integers given as windows are [Z]. *)

From Stdlib Require Import Ascii String.
From Stdlib Require Import List Arith Lia ZArith Reals Lra Sorting.Sorted
  Sorting.Permutation.
Import ListNotations.

Open Scope bool_scope.
Open Scope R_scope.

(** ** Errors and results *)

(** The error taxonomy of the engine, plus Python's [IndexError] raised by
    out-of-range indexing ([l[0]] on an empty list, [s.iloc[-1]] on an empty
    series) at the call sites in [main.py]. *)
Inductive PyError :=
| InvalidWindowError
| EmptySeriesError
| IndexError.

Inductive Result (A : Type) :=
| Ok (a : A)
| Err (e : PyError).
Arguments Ok {A} a.
Arguments Err {A} e.

Definition bind {A B} (r : Result A) (k : A -> Result B) : Result B :=
  match r with
  | Ok a => k a
  | Err e => Err e
  end.

Notation "x <- r ;; k" := (bind r (fun x => k))
  (at level 61, r at next level, right associativity).

(** An indicator series: one slot per input point, [None] when undefined. *)
Definition Series := list (option R).

Fixpoint sum_list (l : list R) : R :=
  match l with
  | [] => 0
  | x :: t => x + sum_list t
  end.

Definition mean (w : nat) (l : list R) : R := sum_list l / INR w.

(** Number of undefined slots before the first defined one. *)
Fixpoint leading_undefined (s : Series) : nat :=
  match s with
  | None :: t => S (leading_undefined t)
  | _ => 0
  end.

(** ** Rolling statistics (SMA) *)

(** Modelled from the spec: [ti.calculate_ma] (4.1 Rolling Statistics).
    SMA at index [i] is the mean of the closes in [[i-w+1, i]] when
    [i >= w-1], else undefined; the output has one slot per input point. *)
Definition sma_at (close : list R) (w i : nat) : option R :=
  if (w <=? S i)%nat
  then Some (mean w (firstn w (skipn (S i - w) close)))
  else None.

Definition sma_values (close : list R) (w : nat) : Series :=
  map (sma_at close w) (seq 0 (length close)).

(** Modelled from the spec: [ti.calculate_ma(close, w)]; a non-positive
    window fails with [InvalidWindowError] before any computation. *)
Definition calculate_ma (close : list R) (w : Z) : Result Series :=
  if (w <=? 0)%Z then Err InvalidWindowError
  else Ok (sma_values close (Z.to_nat w)).

(** Pointwise combination of two aligned series: undefined wherever either
    operand is undefined. *)
Fixpoint lift2_series (f : R -> R -> R) (a b : Series) : Series :=
  match a, b with
  | x :: a', y :: b' =>
      match x, y with
      | Some u, Some v => Some (f u v)
      | _, _ => None
      end :: lift2_series f a' b'
  | _, _ => []
  end.

(** ** Exponential smoothing (EMA) *)

(** The recurrence [EMA[i] = alpha * x[i] + (1 - alpha) * EMA[i-1]] run over
    the points after the seed. *)
Fixpoint ema_run (alpha prev : R) (xs : list R) : list R :=
  match xs with
  | [] => []
  | x :: t => let e := alpha * x + (1 - alpha) * prev in e :: ema_run alpha e t
  end.

Definition ema_alpha (w : nat) : R := 2 / (INR w + 1).

(** Modelled from the spec: the EMA operator of [ti.calculate_ema] (4.2),
    over any numeric series.  The seed at index [w-1] is the SMA of the first
    [w] points; the positions before it are undefined; a series shorter than
    the window is all undefined. *)
Definition ema_values (xs : list R) (w : nat) : Series :=
  if (length xs <? w)%nat then repeat None (length xs)
  else
    let seed := mean w (firstn w xs) in
    repeat None (w - 1) ++ map Some (seed :: ema_run (ema_alpha w) seed (skipn w xs)).

(** Modelled from the spec: [ti.calculate_ema(close, w)]. *)
Definition calculate_ema (close : list R) (w : Z) : Result Series :=
  if (w <=? 0)%Z then Err InvalidWindowError
  else Ok (ema_values close (Z.to_nat w)).

(** ** Bollinger bands *)

(** Modelled from the spec: the rolling population standard deviation of
    4.1 (same window as the SMA, divided by [w]). *)
Definition rolling_std_at (close : list R) (w i : nat) : option R :=
  if (w <=? S i)%nat
  then
    let win := firstn w (skipn (S i - w) close) in
    let m := mean w win in
    Some (sqrt (mean w (map (fun x => (x - m) ^ 2) win)))
  else None.

Definition rolling_std_values (close : list R) (w : nat) : Series :=
  map (rolling_std_at close w) (seq 0 (length close)).

(** Modelled from the spec: [ti.calculate_bollinger_bands(close, w=20, k=2)]
    (4.3), returning [(upper, middle, lower)] as [main.py] unpacks it. *)
Definition calculate_bollinger_bands (close : list R) (w : Z) (k : R)
  : Result (Series * Series * Series) :=
  middle <- calculate_ma close w ;;
  let sd := rolling_std_values close (Z.to_nat w) in
  Ok (lift2_series (fun m s => m + k * s) middle sd,
      middle,
      lift2_series (fun m s => m - k * s) middle sd).

(** ** RSI *)

(** [delta[i] = close[i] - close[i-1]] for [i >= 1]. *)
Fixpoint deltas (xs : list R) : list R :=
  match xs with
  | x :: ((y :: _) as t) => (y - x) :: deltas t
  | _ => []
  end.

Definition gains (xs : list R) : list R := map (fun d => Rmax d 0) (deltas xs).
Definition losses (xs : list R) : list R := map (fun d => Rmax (- d) 0) (deltas xs).

(** Wilder smoothing: [avg[i] = (avg[i-1] * (w-1) + x[i]) / w]. *)
Fixpoint wilder_run (w ag al : R) (gl : list (R * R)) : list (R * R) :=
  match gl with
  | [] => []
  | (g, l) :: t =>
      let ag' := (ag * (w - 1) + g) / w in
      let al' := (al * (w - 1) + l) / w in
      (ag', al') :: wilder_run w ag' al' t
  end.

(** Modelled from the spec: the averages [(avgGain, avgLoss)] of 4.4, defined
    from index [w] on ([avgGain[w] = mean(gain[1..w])]). *)
Definition rsi_averages (xs : list R) (w : nat) : list (option (R * R)) :=
  if (length xs <=? w)%nat then repeat None (length xs)
  else
    let g := gains xs in
    let l := losses xs in
    let ag0 := mean w (firstn w g) in
    let al0 := mean w (firstn w l) in
    repeat None w
      ++ map Some ((ag0, al0) :: wilder_run (INR w) ag0 al0 (skipn w (combine g l))).

(** Modelled from the spec: RSI from the averages, with the edge policy
    [avgLoss = 0 /\ avgGain > 0 => 100] and [avgLoss = avgGain = 0 => 50]. *)
Definition rsi_point (p : R * R) : R :=
  let (ag, al) := p in
  if Req_EM_T al 0 then (if Rlt_dec 0 ag then 100 else 50)
  else 100 - 100 / (1 + ag / al).

(** Modelled from the spec: [ti.calculate_rsi(close, w=14)]. *)
Definition calculate_rsi (close : list R) (w : Z) : Result Series :=
  if (w <=? 0)%Z then Err InvalidWindowError
  else
    match close with
    | [] => Err EmptySeriesError
    | _ => Ok (map (option_map rsi_point) (rsi_averages close (Z.to_nat w)))
    end.

(** ** MACD *)

Definition defined_values (s : Series) : list R :=
  flat_map (fun o => match o with Some v => [v] | None => [] end) s.

(** Modelled from the spec: [ti.calculate_macd(close, 12, 26, 9)] (4.5),
    returning [(macdLine, signalLine, histogram)]. *)
Definition calculate_macd (close : list R) (fast slow signal : Z)
  : Result (Series * Series * Series) :=
  if ((fast <=? 0)%Z || (slow <=? 0)%Z || (signal <=? 0)%Z)%bool then Err InvalidWindowError
  else
    ef <- calculate_ema close fast ;;
    es <- calculate_ema close slow ;;
    let macd := lift2_series Rminus ef es in
    let d := leading_undefined macd in
    let sig := repeat None d ++ ema_values (defined_values (skipn d macd)) (Z.to_nat signal) in
    let hist := map (fun i =>
                  match nth_error macd i, nth_error sig i with
                  | Some (Some a), Some (Some b) => Some (a - b)
                  | _, _ => None
                  end) (seq 0 (length close)) in
    Ok (macd, sig, hist).

(** ** Support/Resistance detector *)

(** One OHLCV bar ([df] row); the timestamp is the row index. *)
Record Candle := mkCandle {
  c_open : R; c_high : R; c_low : R; c_close : R; c_volume : R }.

Inductive LevelKind := Support | Resistance.

Record Level := mkLevel {
  lvl_kind : LevelKind;
  lvl_value : R;
  lvl_strength : nat;
  lvl_last : nat }.

Definition Rltb (a b : R) : bool := if Rlt_dec a b then true else false.
Definition Rleb (a b : R) : bool := if Rle_dec a b then true else false.

(** Insertion sort for a boolean order [le]; stable. *)
Fixpoint insert_by {A} (le : A -> A -> bool) (x : A) (l : list A) : list A :=
  match l with
  | [] => [x]
  | y :: t => if le x y then x :: y :: t else y :: insert_by le x t
  end.

Fixpoint sort_by {A} (le : A -> A -> bool) (l : list A) : list A :=
  match l with
  | [] => []
  | x :: t => insert_by le x (sort_by le t)
  end.

(** Indices [i] with [k <= i <= n-1-k]. *)
Definition pivot_range (n k : nat) : list nat :=
  if (n <? 2 * k + 1)%nat then [] else seq k (n - 2 * k).

(** [xs[i]] is the strict extremum of [xs[i-k..i+k]] for the order [lt]:
    [lt xs[j] xs[i]] for every other [j] of the window, so [Rltb] selects a
    strict maximum and the converse order a strict minimum. *)
Definition is_swing (lt : R -> R -> bool) (xs : list R) (k i : nat) : bool :=
  forallb (fun j => (j =? i)%nat || lt (nth j xs 0) (nth i xs 0))
    (seq (i - k) (2 * k + 1)).

(** Modelled from the spec: pivot detection (4.6, step 1); candidates are
    [(price, source index)]. *)
Definition swing_candidates (lt : R -> R -> bool) (xs : list R) (k : nat)
  : list (R * nat) :=
  map (fun i => (nth i xs 0, i))
    (filter (is_swing lt xs k) (pivot_range (length xs) k)).

(** A cluster under construction: running sum, size, largest source index. *)
Record Cluster := mkCluster { cl_sum : R; cl_size : nat; cl_last : nat }.

Definition cluster_mean (c : Cluster) : R := cl_sum c / INR (cl_size c).

(** Greedy merge over the price-sorted candidates: extend the cluster while
    the next price is within [tol] of the cluster's running mean. *)
Fixpoint cluster_run (tol : R) (cur : Cluster) (cs : list (R * nat)) : list Cluster :=
  match cs with
  | [] => [cur]
  | (p, i) :: t =>
      if Rleb (Rabs (p - cluster_mean cur)) tol
      then cluster_run tol (mkCluster (cl_sum cur + p) (S (cl_size cur))
                                      (Nat.max (cl_last cur) i)) t
      else cur :: cluster_run tol (mkCluster p 1 i) t
  end.

(** Modelled from the spec: clustering (4.6, step 2). *)
Definition cluster_candidates (tol : R) (cs : list (R * nat)) : list Cluster :=
  match sort_by (fun a b => Rleb (fst a) (fst b)) cs with
  | [] => []
  | (p, i) :: t => cluster_run tol (mkCluster p 1 i) t
  end.

Definition to_level (kind : LevelKind) (c : Cluster) : Level :=
  mkLevel kind (cluster_mean c) (cl_size c) (cl_last c).

(** Ranking order: descending strength, ties by descending [lastTouchIndex]. *)
Definition level_before (a b : Level) : bool :=
  (lvl_strength b <? lvl_strength a)%nat
  || ((lvl_strength a =? lvl_strength b)%nat && (lvl_last b <=? lvl_last a)%nat).

Definition current_close (df : list Candle) : R := last (map c_close df) 0.

(** Modelled from the spec: classification (4.6, step 3), the clusters that
    survive on each side. *)
Definition surviving_supports (df : list Candle) (k : nat) (tau : R) : list Level :=
  let cc := current_close df in
  filter (fun l => Rltb (lvl_value l) cc)
    (map (to_level Support)
       (cluster_candidates (tau * cc)
          (swing_candidates (fun a b => Rltb b a) (map c_low df) k))).

Definition surviving_resistances (df : list Candle) (k : nat) (tau : R) : list Level :=
  let cc := current_close df in
  filter (fun l => Rltb cc (lvl_value l))
    (map (to_level Resistance)
       (cluster_candidates (tau * cc)
          (swing_candidates Rltb (map c_high df) k))).

(** Modelled from the spec: [ti.identify_support_resistance(df)] (4.6):
    ranking (step 4) and the top [N] of each side. *)
Definition identify_support_resistance (df : list Candle) (k : nat) (tau : R) (N : nat)
  : list Level * list Level :=
  (firstn N (sort_by level_before (surviving_supports df k tau)),
   firstn N (sort_by level_before (surviving_resistances df k tau))).

(** The documented defaults: lookback 5, tolerance 1%, 3 levels per side. *)
Definition identify_sr_default (df : list Candle) : list Level * list Level :=
  identify_support_resistance df 5 (1 / 100) 3.


(** ** [main.py]: the price chart and the technical summary *)

(** A plotly trace (name and y values) and a horizontal line added by
    [fig.add_hline(y=..., line_color=...)]. *)
Record Trace := mkTrace { tr_name : string; tr_y : Series }.
Record HLine := mkHLine { hl_y : R; hl_color : string }.
Record Figure := mkFigure { fig_traces : list Trace; fig_hlines : list HLine }.

Definition selected (name : string) (indicators : list string) : bool :=
  existsb (String.eqb name) indicators.

Definition add_trace (f : Figure) (t : Trace) : Figure :=
  mkFigure (fig_traces f ++ [t]) (fig_hlines f).
Definition add_hline (f : Figure) (h : HLine) : Figure :=
  mkFigure (fig_traces f) (fig_hlines f ++ [h]).

(** The horizontal lines of a figure drawn in a given colour. *)
Definition hlines_colored (color : string) (f : Figure) : list HLine :=
  filter (fun h => String.eqb (hl_color h) color) (fig_hlines f).

Definition closes (df : list Candle) : list R := map c_close df.

(** [main.py] [plot_with_indicators(df, indicators)], lines 23-135 (layout
    settings omitted).  The call site uses each returned level as its price
    ([y=level]); the detector's levels are consumed through [lvl_value]. *)
Definition plot_with_indicators (df : list Candle) (indicators : list string)
  : Result Figure :=
  let fig := mkFigure [mkTrace "Price"%string (map Some (closes df))] [] in
  fig <- (if selected "MA"%string indicators then
            ma20 <- calculate_ma (closes df) 20 ;;
            ma50 <- calculate_ma (closes df) 50 ;;
            Ok (add_trace (add_trace fig (mkTrace "MA20"%string ma20))
                  (mkTrace "MA50"%string ma50))
          else Ok fig) ;;
  fig <- (if selected "EMA"%string indicators then
            ema20 <- calculate_ema (closes df) 20 ;;
            Ok (add_trace fig (mkTrace "EMA20"%string ema20))
          else Ok fig) ;;
  fig <- (if selected "Bollinger Bands"%string indicators then
            bb <- calculate_bollinger_bands (closes df) 20 2 ;;
            let '(upper, _, lower) := bb in
            Ok (add_trace (add_trace fig (mkTrace "Upper BB"%string upper))
                  (mkTrace "Lower BB"%string lower))
          else Ok fig) ;;
  let fig :=
    if selected "Support/Resistance"%string indicators then
      let '(support, resistance) := identify_sr_default df in
      let fig := fold_left
                   (fun f level => add_hline f (mkHLine (lvl_value level) "green"%string))
                   (firstn 3 support) fig in
      fold_left (fun f level => add_hline f (mkHLine (lvl_value level) "red"%string))
        (firstn 3 resistance) fig
    else fig in
  Ok fig.

(** Python's [s.iloc[-1]] and [l[0]]. *)
Definition iloc_last {A} (l : list A) : Result A :=
  match rev l with
  | [] => Err IndexError
  | x :: _ => Ok x
  end.

Definition index0 {A} (l : list A) : Result A :=
  match l with
  | [] => Err IndexError
  | x :: _ => Ok x
  end.

(** Python's [>] on floats, with NaN comparing false. *)
Definition py_gt (a b : option R) : bool :=
  match a, b with Some x, Some y => Rltb y x | _, _ => false end.

(** What [st.write] puts on the page: a text line, or a text prefix
    followed by a price formatted with [:,.2f]. *)
Inductive Line := LText (s : string) | LPrice (prefix : string) (v : R).

(** Output written so far, with the outcome of the computation: a write is
    kept even when a later statement raises. *)
Definition Out (A : Type) : Type := list Line * Result A.

Definition wbind {A B} (m : Out A) (k : A -> Out B) : Out B :=
  match m with
  | (w, Ok a) => let '(w', r) := k a in (w ++ w', r)
  | (w, Err e) => (w, Err e)
  end.

Definition lift {A} (r : Result A) : Out A := ([], r).
Definition write (l : Line) : Out unit := ([l], Ok tt).

Notation "x <-- m ;;; k" := (wbind m (fun x => k))
  (at level 61, m at next level, right associativity).

(** [main.py] lines 228-246: the "Technical Analysis Summary" written when
    [df is not None]: the lines written by [st.write], in order, and the
    outcome [(trend, rsi_signal, support, resistance)] or the exception. *)
Definition technical_summary_run (df : list Candle) : Out (string * string * R * R) :=
  latest_close <-- lift (iloc_last (closes df)) ;;;
  ma20s <-- lift (calculate_ma (closes df) 20) ;;;
  ma20 <-- lift (iloc_last ma20s) ;;;
  ma50s <-- lift (calculate_ma (closes df) 50) ;;;
  ma50 <-- lift (iloc_last ma50s) ;;;
  rsis <-- lift (calculate_rsi (closes df) 14) ;;;
  rsi <-- lift (iloc_last rsis) ;;;
  let trend := if py_gt ma20 ma50 then "Bullish"%string else "Bearish"%string in
  _ <-- write (LText (String.append "Trend: " trend)) ;;;
  let rsi_signal :=
    if py_gt rsi (Some 70) then "Overbought"%string
    else if py_gt (Some 30) rsi then "Oversold"%string else "Neutral"%string in
  _ <-- write (LText (String.append "RSI Signal: " rsi_signal)) ;;;
  let '(support, resistance) := identify_sr_default df in
  _ <-- write (LText "Key Levels:") ;;;
  s0 <-- lift (index0 support) ;;;
  _ <-- write (LPrice "Support: $" (lvl_value s0)) ;;;
  r0 <-- lift (index0 resistance) ;;;
  _ <-- write (LPrice "Resistance: $" (lvl_value r0)) ;;;
  lift (Ok (trend, rsi_signal, lvl_value s0, lvl_value r0)).

(** The outcome of the summary block. *)
Definition technical_summary (df : list Candle) : Result (string * string * R * R) :=
  snd (technical_summary_run df).

(** [main.py] lines 178-185: the separate RSI chart, [ti.calculate_rsi]
    with its default window and the 70 / 30 guide lines. *)
Definition rsi_figure (df : list Candle) : Result Figure :=
  rsi <- calculate_rsi (closes df) 14 ;;
  let fig_rsi := mkFigure [mkTrace "RSI"%string rsi] [] in
  let fig_rsi := add_hline fig_rsi (mkHLine 70 "red"%string) in
  Ok (add_hline fig_rsi (mkHLine 30 "green"%string)).

(** [main.py] lines 187-194: the separate MACD chart with
    [ti.calculate_macd]'s defaults [(12, 26, 9)]. *)
Definition macd_figure (df : list Candle) : Result Figure :=
  res <- calculate_macd (closes df) 12 26 9 ;;
  let '(macd, signal, hist) := res in
  Ok (mkFigure [mkTrace "MACD"%string macd; mkTrace "Signal"%string signal;
                mkTrace "Histogram"%string hist] []).

(** ** [main.py]: coin names and the meme-coin comparison *)

(** ASCII character classes and case mappings, as Python's [str] methods
    behave on ASCII text. *)
Definition is_upper (c : ascii) : bool :=
  let n := nat_of_ascii c in ((65 <=? n) && (n <=? 90))%nat.
Definition is_lower (c : ascii) : bool :=
  let n := nat_of_ascii c in ((97 <=? n) && (n <=? 122))%nat.
Definition is_cased (c : ascii) : bool := is_upper c || is_lower c.
Definition to_upper (c : ascii) : ascii :=
  if is_lower c then ascii_of_nat (nat_of_ascii c - 32) else c.
Definition to_lower (c : ascii) : ascii :=
  if is_upper c then ascii_of_nat (nat_of_ascii c + 32) else c.

(** Python's [str.title()] (CPython's [do_title]): a cased character is
    lowered when the previous character is cased and title-cased otherwise;
    [prev_cased] is that flag. *)
Fixpoint title_from (prev_cased : bool) (s : string) : string :=
  match s with
  | EmptyString => EmptyString
  | String c t =>
      String (if is_cased c then (if prev_cased then to_lower c else to_upper c) else c)
        (title_from (is_cased c) t)
  end.

Definition py_title (s : string) : string := title_from false s.

(** Python's [s.replace(a, b)] for one-character [a] and [b]. *)
Fixpoint replace_char (a b : ascii) (s : string) : string :=
  match s with
  | EmptyString => EmptyString
  | String c t => String (if Ascii.eqb c a then b else c) (replace_char a b t)
  end.

(** Python's [str.lower()] on ASCII text. *)
Fixpoint py_lower (s : string) : string :=
  match s with
  | EmptyString => EmptyString
  | String c t => String (to_lower c) (py_lower t)
  end.

(** [main.py] lines 19-21: [format_coin_name]. *)
Definition format_coin_name (coin_id : string) : string :=
  py_title (replace_char "-"%char " "%char coin_id).

(** Python [str] text restricted to ASCII, where the case mappings above are
    Python's. *)
Definition ascii_only (s : string) : bool :=
  forallb (fun c => (nat_of_ascii c <? 128)%nat) (list_ascii_of_string s).

Definition py_in (x : string) (l : list string) : bool := existsb (String.eqb x) l.

(** [main.py] line 250. *)
Definition meme_coins : list string :=
  ["dogecoin"; "shiba-inu"; "pepe"; "floki"]%string.

(** [main.py] line 253: the options of the comparison multiselect. *)
Definition compare_options (crypto_list : list string) (selected_crypto : string)
  : list string :=
  filter (fun coin => py_in coin crypto_list && negb (String.eqb coin selected_crypto))
    meme_coins.

(** [main.py] line 254: its default, [None] standing for Python's [None]. *)
Definition compare_default (crypto_list : list string) (selected_crypto : string)
  : option (list string) :=
  if negb (String.eqb (nth 0 meme_coins ""%string) selected_crypto)
     && py_in (nth 0 meme_coins ""%string) crypto_list
  then Some [nth 0 meme_coins ""%string] else None.


(** * Proofs *)

(** ** Generic lemmas on series *)

Lemma nth_error_map_seq {A} (f : nat -> A) n i :
  (i < n)%nat -> nth_error (map f (seq 0 n)) i = Some (f i).
Proof.
  intros H. rewrite nth_error_map, nth_error_seq.
  apply Nat.ltb_lt in H. rewrite H. reflexivity.
Qed.

Lemma leading_undefined_spec (s : Series) (d : nat) :
  (d <= length s)%nat ->
  (forall i, (i < d)%nat -> nth_error s i = Some None) ->
  ((d < length s)%nat -> exists v, nth_error s d = Some (Some v)) ->
  leading_undefined s = d.
Proof.
  revert d. induction s as [|x s IH]; intros d Hd Hnone Hsome.
  - simpl in *. lia.
  - destruct d as [|d].
    + destruct Hsome as [v Hv]; [simpl; lia|]. simpl in Hv. injection Hv as ->. reflexivity.
    + assert (Hx : x = None) by (exact (f_equal (fun o => match o with
        Some y => y | None => x end) (Hnone 0%nat ltac:(lia)))).
      subst x. simpl. f_equal. apply IH.
      * simpl in Hd. lia.
      * intros i Hi. apply (Hnone (S i)). lia.
      * intros Hlt. apply Hsome. simpl. lia.
Qed.

Lemma sma_values_length close w : length (sma_values close w) = length close.
Proof. unfold sma_values. now rewrite length_map, length_seq. Qed.

Lemma sma_values_nth close w i :
  (i < length close)%nat -> nth_error (sma_values close w) i = Some (sma_at close w i).
Proof. intros H. unfold sma_values. now apply nth_error_map_seq. Qed.

Lemma sma_at_undefined close w i : (S i < w)%nat -> sma_at close w i = None.
Proof.
  intros H. unfold sma_at.
  destruct (Nat.leb_spec w (S i)); [lia | reflexivity].
Qed.

Lemma sma_at_defined close w i : (w <= S i)%nat -> exists v, sma_at close w i = Some v.
Proof.
  intros H. unfold sma_at.
  destruct (Nat.leb_spec w (S i)); [eexists; reflexivity | lia].
Qed.

Lemma calculate_ma_pos close w :
  (0 < w)%Z -> calculate_ma close w = Ok (sma_values close (Z.to_nat w)).
Proof.
  intros H. unfold calculate_ma.
  destruct (Z.leb_spec w 0); [lia | reflexivity].
Qed.

Lemma sma_values_short close w :
  (length close < w)%nat -> sma_values close w = repeat None (length close).
Proof.
  intros H. unfold sma_values.
  rewrite (map_ext_in _ (fun _ => None)).
  - now rewrite map_const, length_seq.
  - intros i Hi. apply in_seq in Hi. apply sma_at_undefined. lia.
Qed.

(** ** SMA (claims C2, C3) *)

(** C2 (as amended): for every close series of length [n] and every positive
    window [w], the SMA has length exactly [n], its number of undefined
    leading positions is [min(w-1, n)], and every position from index [w-1]
    on is defined. *)
Theorem sma_length_and_undefined_prefix (close : list R) (w : Z) :
  (0 < w)%Z ->
  match calculate_ma close w with
  | Ok out =>
      length out = length close
      /\ leading_undefined out = Nat.min (Z.to_nat w - 1) (length close)
      /\ (forall i, (Z.to_nat w - 1 <= i < length close)%nat ->
            exists v, nth_error out i = Some (Some v))
  | Err _ => False
  end.
Proof.
  intros Hw. rewrite calculate_ma_pos by exact Hw.
  set (n := Z.to_nat w).
  assert (Hn : (1 <= n)%nat) by (unfold n; lia).
  split; [apply sma_values_length|]. split.
  - apply leading_undefined_spec; rewrite ?sma_values_length.
    + lia.
    + intros i Hi. rewrite sma_values_nth by lia.
      now rewrite sma_at_undefined by lia.
    + intros Hlt. rewrite sma_values_nth by lia.
      destruct (sma_at_defined close n (Nat.min (n - 1) (length close))) as [v Hv];
        [lia|]. exists v. now rewrite Hv.
  - intros i Hi. rewrite sma_values_nth by lia.
    destruct (sma_at_defined close n i) as [v Hv]; [lia|].
    exists v. now rewrite Hv.
Qed.

Lemma sma_length_and_undefined_prefix_witness :
  (0 < 20)%Z /\
  match calculate_ma [1; 2; 3] 20 with
  | Ok out =>
      length out = length [1; 2; 3]
      /\ leading_undefined out = Nat.min (Z.to_nat 20 - 1) (length [1; 2; 3])
      /\ (forall i, (Z.to_nat 20 - 1 <= i < length [1; 2; 3])%nat ->
            exists v, nth_error out i = Some (Some v))
  | Err _ => False
  end.
Proof.
  split; [lia | apply (sma_length_and_undefined_prefix [1; 2; 3] 20); lia].
Defined.

(** C2 fails as stated: with [n >= w = 2] the SMA is not defined at all [n]
    positions; index [0] is undefined. *)
Lemma sma_not_all_defined_when_n_ge_w :
  ~ (forall (close : list R) (w : Z), (0 < w)%Z ->
       (Z.to_nat w <= length close)%nat ->
       match calculate_ma close w with
       | Ok out => forall i, (i < length close)%nat ->
                     exists v, nth_error out i = Some (Some v)
       | Err _ => True
       end).
Proof.
  intros H. specialize (H [1; 2] 2%Z ltac:(lia) ltac:(simpl; lia)).
  rewrite calculate_ma_pos in H by lia.
  destruct (H 0%nat ltac:(simpl; lia)) as [v Hv].
  rewrite sma_values_nth in Hv by (simpl; lia).
  rewrite sma_at_undefined in Hv by (simpl; lia). discriminate.
Qed.

(** C3: [calculate_ma] raises [InvalidWindowError] exactly when [w <= 0],
    raises no other error, and for a positive window longer than the series
    returns the all-undefined series of the series' length. *)
Theorem calculate_ma_error_policy (close : list R) (w : Z) :
  (calculate_ma close w = Err InvalidWindowError <-> (w <= 0)%Z)
  /\ (forall e, calculate_ma close w = Err e -> e = InvalidWindowError)
  /\ ((0 < w)%Z -> (Z.of_nat (length close) < w)%Z ->
      calculate_ma close w = Ok (repeat None (length close))).
Proof.
  unfold calculate_ma. destruct (Z.leb_spec w 0) as [H | H].
  - split; [tauto|]. split; [congruence|]. intros; lia.
  - split; [split; [discriminate | lia]|]. split; [discriminate|].
    intros _ Hlt. f_equal. apply sma_values_short. lia.
Qed.

(** ** EMA (claim C7) *)

Lemma ema_run_length a p xs : length (ema_run a p xs) = length xs.
Proof. revert p. induction xs as [|x t IH]; intros p; simpl; [|rewrite IH]; reflexivity. Qed.

Lemma ema_run_step a p xs j :
  (j < length xs)%nat ->
  exists e e', nth_error (p :: ema_run a p xs) (S j) = Some e
          /\ nth_error (p :: ema_run a p xs) j = Some e'
          /\ e = a * nth j xs 0 + (1 - a) * e'.
Proof.
  revert p j. induction xs as [|x t IH]; intros p j Hj; simpl in Hj; [lia|].
  destruct j as [|j].
  - do 2 eexists. split; [reflexivity|]. split; [reflexivity|]. reflexivity.
  - destruct (IH (a * x + (1 - a) * p) j ltac:(lia)) as (e & e' & H1 & H2 & H3).
    exists e, e'. split; [exact H1|]. split; [exact H2|]. exact H3.
Qed.

Lemma nth_error_prefix_app {A} (d : A) (m : nat) (l : list A) i :
  nth_error (repeat d m ++ l) i =
  if (i <? m)%nat then Some d else nth_error l (i - m).
Proof.
  destruct (Nat.ltb_spec i m).
  - rewrite nth_error_app1 by (rewrite repeat_length; lia).
    now apply nth_error_repeat.
  - rewrite nth_error_app2 by (rewrite repeat_length; lia).
    now rewrite repeat_length.
Qed.

Lemma sma_at_seed close w :
  (0 < w)%nat -> sma_at close w (w - 1) = Some (mean w (firstn w close)).
Proof.
  intros Hw. unfold sma_at.
  destruct (Nat.leb_spec w (S (w - 1))); [|lia].
  replace (S (w - 1) - w)%nat with 0%nat by lia. reflexivity.
Qed.

(** C7: for a close series of length at least [w] and a positive window [w],
    the EMA is undefined before index [w-1], equals the SMA of the first [w]
    closes at index [w-1], and for every [i >= w] satisfies
    [EMA[i] = alpha * close[i] + (1 - alpha) * EMA[i-1]], [alpha = 2/(w+1)]. *)
Theorem ema_seed_and_recurrence (close : list R) (w : nat) :
  (0 < w)%nat -> (w <= length close)%nat ->
  match calculate_ema close (Z.of_nat w) with
  | Ok out =>
      length out = length close
      /\ (forall i, (i < w - 1)%nat -> nth_error out i = Some None)
      /\ nth_error out (w - 1) = Some (sma_at close w (w - 1))
      /\ nth_error out (w - 1) = Some (Some (mean w (firstn w close)))
      /\ (forall i, (w <= i < length close)%nat ->
            exists e e', nth_error out i = Some (Some e)
                    /\ nth_error out (i - 1) = Some (Some e')
                    /\ e = ema_alpha w * nth i close 0 + (1 - ema_alpha w) * e')
  | Err _ => False
  end.
Proof.
  intros Hw Hn. unfold calculate_ema.
  destruct (Z.leb_spec (Z.of_nat w) 0); [lia|].
  rewrite Nat2Z.id. unfold ema_values.
  destruct (Nat.ltb_spec (length close) w); [lia|].
  set (seed := mean w (firstn w close)).
  set (rest := skipn w close).
  split.
  { rewrite length_app, repeat_length, length_map. simpl.
    rewrite ema_run_length. unfold rest. rewrite length_skipn. lia. }
  split.
  { intros i Hi. rewrite nth_error_prefix_app.
    destruct (Nat.ltb_spec i (w - 1)); [reflexivity | lia]. }
  assert (Hseed : nth_error (repeat None (w - 1)
                    ++ map Some (seed :: ema_run (ema_alpha w) seed rest)) (w - 1)
                  = Some (Some seed)).
  { rewrite nth_error_prefix_app.
    destruct (Nat.ltb_spec (w - 1) (w - 1)); [lia|].
    now replace (w - 1 - (w - 1))%nat with 0%nat by lia. }
  split; [rewrite Hseed, sma_at_seed by exact Hw; reflexivity|].
  split; [exact Hseed|].
  intros i Hi.
  destruct (ema_run_step (ema_alpha w) seed rest (i - w)) as (e & e' & H1 & H2 & H3).
  { unfold rest. rewrite length_skipn. lia. }
  exists e, e'.
  rewrite !nth_error_prefix_app.
  destruct (Nat.ltb_spec i (w - 1)); [lia|].
  destruct (Nat.ltb_spec (i - 1) (w - 1)); [lia|].
  rewrite !nth_error_map.
  replace (i - (w - 1))%nat with (S (i - w)) by lia.
  replace (i - 1 - (w - 1))%nat with (i - w)%nat by lia.
  rewrite H1, H2. split; [reflexivity|]. split; [reflexivity|].
  rewrite H3. unfold rest. rewrite nth_skipn.
  now replace (w + (i - w))%nat with i by lia.
Qed.

Lemma ema_seed_and_recurrence_witness :
  (0 < 2)%nat /\ (2 <= length [1; 2; 4])%nat /\
  match calculate_ema [1; 2; 4] (Z.of_nat 2) with
  | Ok out =>
      length out = length [1; 2; 4]
      /\ (forall i, (i < 2 - 1)%nat -> nth_error out i = Some None)
      /\ nth_error out (2 - 1) = Some (sma_at [1; 2; 4] 2 (2 - 1))
      /\ nth_error out (2 - 1) = Some (Some (mean 2 (firstn 2 [1; 2; 4])))
      /\ (forall i, (2 <= i < length [1; 2; 4])%nat ->
            exists e e', nth_error out i = Some (Some e)
                    /\ nth_error out (i - 1) = Some (Some e')
                    /\ e = ema_alpha 2 * nth i [1; 2; 4] 0 + (1 - ema_alpha 2) * e')
  | Err _ => False
  end.
Proof.
  split; [lia|]. split; [simpl; lia|].
  apply (ema_seed_and_recurrence [1; 2; 4] 2); simpl; lia.
Defined.

(** ** RSI (claims C4, C8) *)

Lemma in_firstn_in {A} n (l : list A) x : In x (firstn n l) -> In x l.
Proof. intros H. rewrite <- (firstn_skipn n l). apply in_or_app. now left. Qed.

Lemma in_skipn_in {A} n (l : list A) x : In x (skipn n l) -> In x l.
Proof. intros H. rewrite <- (firstn_skipn n l). apply in_or_app. now right. Qed.

Lemma sum_list_nonneg l : (forall x, In x l -> 0 <= x) -> 0 <= sum_list l.
Proof.
  induction l as [|x t IH]; intros H; simpl; [lra|].
  assert (0 <= x) by (apply H; now left).
  assert (0 <= sum_list t) by (apply IH; intros y Hy; apply H; now right).
  lra.
Qed.

Lemma mean_nonneg w l : (0 < w)%nat -> (forall x, In x l -> 0 <= x) -> 0 <= mean w l.
Proof.
  intros Hw H. unfold mean, Rdiv. apply Rmult_le_pos.
  - now apply sum_list_nonneg.
  - left. apply Rinv_0_lt_compat. now apply lt_0_INR.
Qed.

Lemma gains_nonneg xs x : In x (gains xs) -> 0 <= x.
Proof.
  unfold gains. intros H. apply in_map_iff in H as (d & <- & _). apply Rmax_r.
Qed.

Lemma losses_nonneg xs x : In x (losses xs) -> 0 <= x.
Proof.
  unfold losses. intros H. apply in_map_iff in H as (d & <- & _). apply Rmax_r.
Qed.

Lemma wilder_run_nonneg w ag al gl :
  1 <= w -> 0 <= ag -> 0 <= al ->
  (forall g l, In (g, l) gl -> 0 <= g /\ 0 <= l) ->
  forall a b, In (a, b) (wilder_run w ag al gl) -> 0 <= a /\ 0 <= b.
Proof.
  intros Hw. revert ag al.
  induction gl as [|[g l] t IH]; intros ag al Hag Hal Hgl a b Hin; simpl in Hin;
    [contradiction|].
  destruct (Hgl g l (or_introl eq_refl)) as [Hg Hl].
  assert (Hag' : 0 <= (ag * (w - 1) + g) / w).
  { unfold Rdiv. apply Rmult_le_pos; [nra | left; apply Rinv_0_lt_compat; lra]. }
  assert (Hal' : 0 <= (al * (w - 1) + l) / w).
  { unfold Rdiv. apply Rmult_le_pos; [nra | left; apply Rinv_0_lt_compat; lra]. }
  destruct Hin as [Heq | Hin].
  - injection Heq as <- <-. now split.
  - apply (IH _ _ Hag' Hal'); [|exact Hin].
    intros g' l' H. apply Hgl. now right.
Qed.

Lemma rsi_averages_nonneg xs w i ag al :
  (0 < w)%nat ->
  nth_error (rsi_averages xs w) i = Some (Some (ag, al)) -> 0 <= ag /\ 0 <= al.
Proof.
  intros Hw H. apply nth_error_In in H. unfold rsi_averages in H.
  destruct (Nat.leb_spec (length xs) w).
  - apply repeat_spec in H. discriminate.
  - apply in_app_or in H as [H | H]; [apply repeat_spec in H; discriminate|].
    apply in_map_iff in H as (p & Hp & Hin). injection Hp as ->.
    assert (Hg0 : 0 <= mean w (firstn w (gains xs))).
    { apply mean_nonneg; [exact Hw|]. intros x Hx.
      apply (gains_nonneg xs). exact (in_firstn_in _ _ _ Hx). }
    assert (Hl0 : 0 <= mean w (firstn w (losses xs))).
    { apply mean_nonneg; [exact Hw|]. intros x Hx.
      apply (losses_nonneg xs). exact (in_firstn_in _ _ _ Hx). }
    destruct Hin as [Heq | Hin].
    + injection Heq as <- <-. now split.
    + eapply wilder_run_nonneg; [| exact Hg0 | exact Hl0 | | exact Hin].
      * apply (le_INR 1). lia.
      * intros g l Hgl. apply in_skipn_in in Hgl. split.
        -- apply (gains_nonneg xs). exact (in_combine_l _ _ _ _ Hgl).
        -- apply (losses_nonneg xs). exact (in_combine_r _ _ _ _ Hgl).
Qed.

Lemma rsi_point_bounds ag al : 0 <= ag -> 0 <= al -> 0 <= rsi_point (ag, al) <= 100.
Proof.
  intros Hag Hal. unfold rsi_point.
  destruct (Req_EM_T al 0) as [_ | Hne].
  - destruct (Rlt_dec 0 ag); lra.
  - assert (Hpos : 0 < al) by lra.
    set (rs := ag / al).
    assert (Hrs : 0 <= rs).
    { unfold rs, Rdiv. apply Rmult_le_pos; [exact Hag|]. left. now apply Rinv_0_lt_compat. }
    set (q := 100 / (1 + rs)).
    assert (Hq : q * (1 + rs) = 100) by (unfold q; field; lra).
    assert (Hq0 : 0 <= q).
    { unfold q, Rdiv. apply Rmult_le_pos; [lra|]. left. apply Rinv_0_lt_compat. lra. }
    nra.
Qed.

Lemma calculate_rsi_ok close w :
  (0 < w)%Z -> close <> [] ->
  calculate_rsi close w = Ok (map (option_map rsi_point) (rsi_averages close (Z.to_nat w))).
Proof.
  intros Hw Hne. unfold calculate_rsi.
  destruct (Z.leb_spec w 0); [lia|]. destruct close; [contradiction | reflexivity].
Qed.

(** C4: at every defined position the RSI lies in [[0, 100]]; where the
    Wilder-smoothed average loss is [0] it is [100] when the average gain is
    positive and [50] when the average gain is [0] as well. *)
Theorem rsi_bounds_and_edge_policy (close : list R) (w : Z) :
  match calculate_rsi close w with
  | Ok out =>
      (forall i v, nth_error out i = Some (Some v) -> 0 <= v <= 100)
      /\ (forall i ag al,
            nth_error (rsi_averages close (Z.to_nat w)) i = Some (Some (ag, al)) ->
            al = 0 ->
            (0 < ag -> nth_error out i = Some (Some 100))
            /\ (ag = 0 -> nth_error out i = Some (Some 50)))
  | Err _ => True
  end.
Proof.
  destruct (Z.leb_spec w 0) as [Hw | Hw].
  { unfold calculate_rsi. destruct (Z.leb_spec w 0); [exact I | lia]. }
  destruct close as [|c cs]; [unfold calculate_rsi; destruct (w <=? 0)%Z; exact I|].
  rewrite calculate_rsi_ok by (lia || discriminate).
  split.
  - intros i v Hv. rewrite nth_error_map in Hv.
    destruct (nth_error (rsi_averages (c :: cs) (Z.to_nat w)) i) as [[[ag al]|]|] eqn:E;
      simpl in Hv; try discriminate.
    injection Hv as <-.
    destruct (rsi_averages_nonneg (c :: cs) (Z.to_nat w) i ag al) as [Hag Hal];
      [lia | exact E |].
    now apply rsi_point_bounds.
  - intros i ag al E Hal. rewrite nth_error_map, E. simpl.
    destruct (Req_EM_T al 0) as [_ | Hne]; [|contradiction].
    split; intros Hag; destruct (Rlt_dec 0 ag); try reflexivity; lra.
Qed.

(** C8: for every positive window (the default is [14]) the empty series
    makes [calculate_rsi] raise [EmptySeriesError]. *)
Theorem rsi_empty_series (w : Z) :
  (0 < w)%Z -> calculate_rsi [] w = Err EmptySeriesError.
Proof.
  intros Hw. unfold calculate_rsi. destruct (Z.leb_spec w 0); [lia | reflexivity].
Qed.

Lemma rsi_empty_series_witness :
  (0 < 14)%Z /\ calculate_rsi [] 14 = Err EmptySeriesError.
Proof. split; [lia | apply (rsi_empty_series 14); lia]. Defined.

(** ** Bollinger bands (claim C5) *)

Lemma lift2_series_map_seq f (g h : nat -> option R) l :
  lift2_series f (map g l) (map h l) =
  map (fun i => match g i, h i with
                | Some u, Some v => Some (f u v)
                | _, _ => None
                end) l.
Proof. induction l as [|i t IH]; simpl; [reflexivity | now rewrite IH]. Qed.

Lemma nth_error_map_seq_full {A} (f : nat -> A) n i :
  nth_error (map f (seq 0 n)) i = if (i <? n)%nat then Some (f i) else None.
Proof. rewrite nth_error_map, nth_error_seq. now destruct (i <? n)%nat. Qed.

Lemma rolling_std_at_nonneg close w i s : rolling_std_at close w i = Some s -> 0 <= s.
Proof.
  unfold rolling_std_at. destruct (w <=? S i)%nat; [|discriminate].
  intros H. injection H as <-. apply sqrt_pos.
Qed.

(** C5 (as amended): for a non-negative multiplier [k], at every position
    where the bands are defined [lower <= middle <= upper]; the middle band
    is the SMA, and the upper and lower bands are undefined exactly where the
    SMA is. *)
Theorem bollinger_ordered_nonneg_k (close : list R) (w : Z) (k : R) :
  0 <= k ->
  match calculate_bollinger_bands close w k with
  | Ok (upper, middle, lower) =>
      middle = sma_values close (Z.to_nat w)
      /\ length upper = length close /\ length lower = length close
      /\ (forall i, nth_error upper i = Some None <-> nth_error middle i = Some None)
      /\ (forall i, nth_error lower i = Some None <-> nth_error middle i = Some None)
      /\ (forall i a b c,
            nth_error upper i = Some (Some a) -> nth_error middle i = Some (Some b) ->
            nth_error lower i = Some (Some c) -> c <= b <= a)
  | Err _ => True
  end.
Proof.
  intros Hk. unfold calculate_bollinger_bands.
  destruct (Z.leb_spec w 0) as [Hw | Hw].
  { unfold calculate_ma. destruct (Z.leb_spec w 0); [exact I | lia]. }
  rewrite calculate_ma_pos by exact Hw. cbn [bind].
  set (n := Z.to_nat w).
  unfold sma_values, rolling_std_values. rewrite !lift2_series_map_seq.
  split; [reflexivity|]. split; [now rewrite length_map, length_seq|].
  split; [now rewrite length_map, length_seq|].
  assert (Hsame : forall i, (sma_at close n i = None <-> rolling_std_at close n i = None)).
  { intros i. unfold sma_at, rolling_std_at. destruct (n <=? S i)%nat; split; discriminate || reflexivity. }
  split; [|split].
  - intros i. rewrite !nth_error_map_seq_full.
    destruct (i <? length close)%nat; [|split; discriminate].
    destruct (sma_at close n i) eqn:E1; destruct (rolling_std_at close n i) eqn:E2;
      try (split; congruence).
    exfalso. apply Hsame in E2. congruence.
  - intros i. rewrite !nth_error_map_seq_full.
    destruct (i <? length close)%nat; [|split; discriminate].
    destruct (sma_at close n i) eqn:E1; destruct (rolling_std_at close n i) eqn:E2;
      try (split; congruence).
    exfalso. apply Hsame in E2. congruence.
  - intros i a b c Ha Hb Hc. rewrite !nth_error_map_seq_full in *.
    destruct (i <? length close)%nat; [|discriminate].
    destruct (sma_at close n i) as [m|]; [|discriminate].
    destruct (rolling_std_at close n i) as [s|] eqn:E2; [|discriminate].
    apply rolling_std_at_nonneg in E2.
    injection Ha as <-. injection Hb as <-. injection Hc as <-.
    assert (0 <= k * s) by (apply Rmult_le_pos; assumption). lra.
Qed.

Lemma bollinger_ordered_nonneg_k_witness :
  0 <= 2 /\
  match calculate_bollinger_bands [1; 2; 3] 2 2 with
  | Ok (upper, middle, lower) =>
      middle = sma_values [1; 2; 3] (Z.to_nat 2)
      /\ length upper = length [1; 2; 3] /\ length lower = length [1; 2; 3]
      /\ (forall i, nth_error upper i = Some None <-> nth_error middle i = Some None)
      /\ (forall i, nth_error lower i = Some None <-> nth_error middle i = Some None)
      /\ (forall i a b c,
            nth_error upper i = Some (Some a) -> nth_error middle i = Some (Some b) ->
            nth_error lower i = Some (Some c) -> c <= b <= a)
  | Err _ => True
  end.
Proof. split; [lra | apply (bollinger_ordered_nonneg_k [1; 2; 3] 2 2); lra]. Defined.

(** C5 fails as stated for every multiplier: with [k = -1] on the closes
    [0; 2] and window [2], at index [1] the middle band is [1], the rolling
    standard deviation is [1], so upper is [0] and lower is [2]. *)
Lemma bollinger_negative_k_unordered :
  ~ (forall (close : list R) (w : Z) (k : R),
       match calculate_bollinger_bands close w k with
       | Ok (upper, middle, lower) =>
           forall i a b c,
             nth_error upper i = Some (Some a) -> nth_error middle i = Some (Some b) ->
             nth_error lower i = Some (Some c) -> c <= b <= a
       | Err _ => True
       end).
Proof.
  intros H. specialize (H [0; 2] 2%Z (-1)).
  unfold calculate_bollinger_bands in H. rewrite calculate_ma_pos in H by lia.
  simpl bind in H.
  set (m := mean 2 [0; 2]) in H.
  assert (Hm : m = 1) by (unfold m, mean; simpl; field).
  set (s := sqrt (mean 2 (map (fun x => (x - m) ^ 2) [0; 2]))) in H.
  assert (Hs : s = 1).
  { unfold s. rewrite Hm. replace (mean 2 (map (fun x => (x - 1) ^ 2) [0; 2])) with 1.
    - apply sqrt_1.
    - unfold mean; simpl; field. }
  specialize (H 1%nat (m + -1 * s) m (m - -1 * s)
                eq_refl eq_refl eq_refl).
  lra.
Qed.

(** ** MACD (claim C6) *)

(** C6: wherever the MACD line and the signal line are both defined the
    histogram is exactly their difference, and it is undefined wherever either
    of them is undefined; it has one slot per close. *)
Theorem macd_histogram_difference (close : list R) (fast slow signal : Z) :
  match calculate_macd close fast slow signal with
  | Ok (macd, sig, hist) =>
      length hist = length close
      /\ (forall i, (i < length close)%nat ->
            (forall a b, nth_error macd i = Some (Some a) ->
                         nth_error sig i = Some (Some b) ->
                         nth_error hist i = Some (Some (a - b)))
            /\ (nth_error macd i = Some None \/ nth_error sig i = Some None ->
                nth_error hist i = Some None))
  | Err _ => True
  end.
Proof.
  unfold calculate_macd.
  destruct ((fast <=? 0)%Z || (slow <=? 0)%Z || (signal <=? 0)%Z); [exact I|].
  destruct (calculate_ema close fast) as [ef|]; [|exact I]. cbn [bind].
  destruct (calculate_ema close slow) as [es|]; [|exact I]. cbn [bind].
  set (macd := lift2_series Rminus ef es).
  set (sig := repeat None (leading_undefined macd)
                ++ ema_values (defined_values (skipn (leading_undefined macd) macd))
                     (Z.to_nat signal)).
  split; [now rewrite length_map, length_seq|].
  intros i Hi. rewrite nth_error_map_seq by exact Hi. split.
  - intros a b Ha Hb. now rewrite Ha, Hb.
  - intros [H | H]; rewrite H; [reflexivity|].
    now destruct (nth_error macd i) as [[]|].
Qed.

(** ** Support/Resistance (claim C1) *)

Section InsertionSort.
Variable A : Type.
Variable le : A -> A -> bool.
Hypothesis le_total : forall a b, le a b = false -> le b a = true.

Let ord (a b : A) : Prop := le a b = true.

Lemma insert_by_perm x l : Permutation (insert_by le x l) (x :: l).
Proof.
  induction l as [|y t IH]; simpl; [reflexivity|].
  destruct (le x y); [reflexivity|].
  rewrite IH. apply perm_swap.
Qed.

Lemma sort_by_perm l : Permutation (sort_by le l) l.
Proof.
  induction l as [|x t IH]; simpl; [reflexivity|].
  rewrite insert_by_perm. now apply perm_skip.
Qed.

Lemma insert_by_hdrel y x t :
  HdRel ord y t -> ord y x -> HdRel ord y (insert_by le x t).
Proof.
  intros Ht Hyx. destruct t as [|z t']; simpl.
  - now constructor.
  - destruct (le x z); constructor; [exact Hyx|].
    now inversion Ht.
Qed.

Lemma insert_by_sorted x l : Sorted ord l -> Sorted ord (insert_by le x l).
Proof.
  induction l as [|y t IH]; intros Hs; simpl.
  - now repeat constructor.
  - destruct (le x y) eqn:E.
    + constructor; [exact Hs | now constructor].
    + inversion Hs as [|? ? Ht Hhd]; subst.
      constructor; [now apply IH|].
      apply insert_by_hdrel; [exact Hhd|]. unfold ord. now apply le_total.
Qed.

Lemma sort_by_sorted l : Sorted ord (sort_by le l).
Proof.
  induction l as [|x t IH]; simpl; [constructor|]. now apply insert_by_sorted.
Qed.
End InsertionSort.

Lemma sorted_firstn {A} (ord : A -> A -> Prop) n l :
  Sorted ord l -> Sorted ord (firstn n l).
Proof.
  revert l. induction n as [|n IH]; intros l Hs; simpl; [constructor|].
  destruct l as [|x t]; [constructor|].
  inversion Hs as [|? ? Ht Hhd]; subst.
  constructor; [now apply IH|].
  destruct t as [|y t']; destruct n; simpl; try constructor.
  now inversion Hhd.
Qed.

Lemma sorted_impl {A} (r1 r2 : A -> A -> Prop) l :
  (forall a b, r1 a b -> r2 a b) -> Sorted r1 l -> Sorted r2 l.
Proof.
  intros Himp Hs. induction Hs as [|x t Ht IH Hhd]; constructor; [exact IH|].
  destruct Hhd; constructor. now apply Himp.
Qed.

(** The ranking order of the specification: strictly stronger first, ties
    broken by the more recent [lastTouchIndex]. *)
Definition ranked_before (a b : Level) : Prop :=
  (lvl_strength b < lvl_strength a)%nat
  \/ (lvl_strength a = lvl_strength b /\ (lvl_last b <= lvl_last a)%nat).

Lemma level_before_total a b : level_before a b = false -> level_before b a = true.
Proof.
  unfold level_before. intros H.
  apply Bool.orb_false_iff in H as [H1 H2].
  apply Nat.ltb_ge in H1.
  destruct (Nat.ltb_spec (lvl_strength a) (lvl_strength b)); [reflexivity|].
  simpl. apply Bool.andb_false_iff in H2 as [H2 | H2].
  - apply Nat.eqb_neq in H2. lia.
  - apply Nat.leb_gt in H2. apply Bool.andb_true_iff.
    split; [apply Nat.eqb_eq; lia | apply Nat.leb_le; lia].
Qed.

Lemma level_before_ranked a b : level_before a b = true -> ranked_before a b.
Proof.
  unfold level_before, ranked_before. intros H.
  apply Bool.orb_true_iff in H as [H | H].
  - left. now apply Nat.ltb_lt.
  - right. apply Bool.andb_true_iff in H as [H1 H2].
    split; [now apply Nat.eqb_eq | now apply Nat.leb_le].
Qed.

Lemma rank_side_spec (surv : list Level) (N : nat) (P : Level -> Prop) :
  (forall l, In l surv -> P l) ->
  let out := firstn N (sort_by level_before surv) in
  (forall l, In l out -> P l)
  /\ length out = Nat.min N (length surv)
  /\ Sorted ranked_before out
  /\ ((length surv <= N)%nat -> Permutation out surv).
Proof.
  intros HP out.
  pose proof (sort_by_perm _ level_before surv) as Hperm.
  split; [|split; [|split]].
  - intros l Hl. apply HP. apply (Permutation_in _ Hperm).
    exact (in_firstn_in _ _ _ Hl).
  - unfold out. rewrite length_firstn, (Permutation_length Hperm). reflexivity.
  - apply sorted_firstn.
    apply (sorted_impl _ _ _ level_before_ranked).
    apply (sort_by_sorted _ level_before level_before_total).
  - intros Hlen. unfold out. rewrite firstn_all2; [exact Hperm|].
    rewrite (Permutation_length Hperm). exact Hlen.
Qed.

Lemma surviving_supports_below df k tau l :
  In l (surviving_supports df k tau) -> lvl_value l < current_close df.
Proof.
  unfold surviving_supports. intros H. apply filter_In in H as [_ H].
  unfold Rltb in H. destruct (Rlt_dec (lvl_value l) (current_close df)); [assumption | discriminate].
Qed.

Lemma surviving_resistances_above df k tau l :
  In l (surviving_resistances df k tau) -> current_close df < lvl_value l.
Proof.
  unfold surviving_resistances. intros H. apply filter_In in H as [_ H].
  unfold Rltb in H. destruct (Rlt_dec (current_close df) (lvl_value l)); [assumption | discriminate].
Qed.

(** C1: every returned support lies strictly below the current close and
    every returned resistance strictly above it; each side has at most [N]
    levels (exactly [min(N, survivors)]), is sorted by descending strength
    with ties broken by descending [lastTouchIndex], and when at most [N]
    clusters survive on a side all of them are returned. *)
Theorem support_resistance_levels (df : list Candle) (k : nat) (tau : R) (N : nat) :
  let '(support, resistance) := identify_support_resistance df k tau N in
  (forall l, In l support -> lvl_value l < current_close df)
  /\ (forall l, In l resistance -> current_close df < lvl_value l)
  /\ length support = Nat.min N (length (surviving_supports df k tau))
  /\ length resistance = Nat.min N (length (surviving_resistances df k tau))
  /\ (length support <= N)%nat /\ (length resistance <= N)%nat
  /\ Sorted ranked_before support /\ Sorted ranked_before resistance
  /\ ((length (surviving_supports df k tau) <= N)%nat ->
      Permutation support (surviving_supports df k tau))
  /\ ((length (surviving_resistances df k tau) <= N)%nat ->
      Permutation resistance (surviving_resistances df k tau)).
Proof.
  unfold identify_support_resistance.
  destruct (rank_side_spec (surviving_supports df k tau) N _
              (surviving_supports_below df k tau)) as (Hs1 & Hs2 & Hs3 & Hs4).
  destruct (rank_side_spec (surviving_resistances df k tau) N _
              (surviving_resistances_above df k tau)) as (Hr1 & Hr2 & Hr3 & Hr4).
  repeat split; try assumption; lia.
Qed.

(** ** The technical summary of [main] (claim C9) *)

Lemma deltas_length xs : length (deltas xs) = (length xs - 1)%nat.
Proof.
  induction xs as [|x t IH]; [reflexivity|].
  destruct t as [|y t']; [reflexivity|].
  change (length (deltas (x :: y :: t'))) with (S (length (deltas (y :: t')))).
  rewrite IH. simpl. lia.
Qed.

Lemma wilder_run_length w ag al gl : length (wilder_run w ag al gl) = length gl.
Proof.
  revert ag al. induction gl as [|[g l] t IH]; intros ag al; simpl; [reflexivity|].
  now rewrite IH.
Qed.

Lemma rsi_averages_length xs w : length (rsi_averages xs w) = length xs.
Proof.
  unfold rsi_averages. destruct (Nat.leb_spec (length xs) w).
  - apply repeat_length.
  - rewrite length_app, repeat_length, length_map. simpl.
    rewrite wilder_run_length, length_skipn, length_combine.
    unfold gains, losses. rewrite !length_map, deltas_length. lia.
Qed.

Lemma iloc_last_nonempty {A} (l : list A) : l <> [] -> exists x, iloc_last l = Ok x.
Proof.
  intros H. unfold iloc_last. destruct (rev l) as [|x t] eqn:E.
  - exfalso. apply H. rewrite <- (rev_involutive l), E. reflexivity.
  - now exists x.
Qed.

Lemma length_nonempty {A} (l : list A) : length l <> 0%nat -> l <> [].
Proof. intros H ->. now apply H. Qed.

(** C9: the summary indexes [support[0]] and [resistance[0]] unguarded: it
    completes only when both sides returned by the detector are non-empty,
    and whenever either side is empty it fails with [IndexError]. *)
Theorem summary_needs_both_levels (df : list Candle) :
  let '(support, resistance) := identify_sr_default df in
  match technical_summary df with
  | Ok _ => support <> [] /\ resistance <> []
  | Err e => e = IndexError /\ (support = [] \/ resistance = [])
  end.
Proof.
  destruct df as [|c cs].
  { split; [reflexivity | now left]. }
  assert (Hn : length (closes (c :: cs)) <> 0%nat) by (unfold closes; simpl; lia).
  unfold technical_summary, technical_summary_run.
  destruct (iloc_last_nonempty (closes (c :: cs))) as [x Hx];
    [now apply length_nonempty|].
  rewrite Hx. cbn [wbind lift].
  rewrite calculate_ma_pos by lia. cbn [wbind lift].
  destruct (iloc_last_nonempty (sma_values (closes (c :: cs)) (Z.to_nat 20))) as [m20 H20];
    [apply length_nonempty; now rewrite sma_values_length|].
  rewrite H20. cbn [wbind lift].
  rewrite calculate_ma_pos by lia. cbn [wbind lift].
  destruct (iloc_last_nonempty (sma_values (closes (c :: cs)) (Z.to_nat 50))) as [m50 H50];
    [apply length_nonempty; now rewrite sma_values_length|].
  rewrite H50. cbn [wbind lift].
  rewrite calculate_rsi_ok by (lia || (unfold closes; discriminate)). cbn [wbind lift].
  destruct (iloc_last_nonempty
              (map (option_map rsi_point) (rsi_averages (closes (c :: cs)) (Z.to_nat 14))))
    as [r H14];
    [apply length_nonempty; now rewrite length_map, rsi_averages_length|].
  rewrite H14. cbn [wbind lift].
  destruct (identify_sr_default (c :: cs)) as [[|s0 ss] [|r0 rs]]; simpl.
  - split; [reflexivity | now left].
  - split; [reflexivity | now left].
  - split; [reflexivity | now right].
  - split; discriminate.
Qed.

(** A one-candle series has no pivots, so the summary fails on [support[0]]. *)
Example summary_single_candle_fails :
  technical_summary [mkCandle 1 1 1 1 1] = Err IndexError.
Proof. reflexivity. Qed.

(** ** The support/resistance lines of the price chart (claim C10) *)

Lemma fold_add_hline (h : Level -> HLine) (l : list Level) (fig : Figure) :
  fold_left (fun f level => add_hline f (h level)) l fig =
  mkFigure (fig_traces fig) (fig_hlines fig ++ map h l).
Proof.
  revert fig. induction l as [|x t IH]; intros fig; simpl.
  - destruct fig; simpl. now rewrite app_nil_r.
  - rewrite IH. simpl. now rewrite <- app_assoc.
Qed.

Lemma filter_color_map (c c' : string) (l : list Level) :
  filter (fun h => String.eqb (hl_color h) c) (map (fun lv => mkHLine (lvl_value lv) c') l) =
  if String.eqb c' c then map (fun lv => mkHLine (lvl_value lv) c') l else [].
Proof.
  induction l as [|x t IH]; simpl; [now destruct (String.eqb c' c)|].
  rewrite IH. now destruct (String.eqb c' c).
Qed.

(** C10: whatever the detector returns, [plot_with_indicators] draws the
    support and resistance lines of [support[:3]] and [resistance[:3]] only,
    so at most 3 green (support) and at most 3 red (resistance) lines. *)
Theorem plot_at_most_three_levels (df : list Candle) (indicators : list string) :
  match plot_with_indicators df indicators with
  | Ok fig =>
      let '(support, resistance) := identify_sr_default df in
      fig_hlines fig =
        (if selected "Support/Resistance" indicators
         then map (fun lv => mkHLine (lvl_value lv) "green") (firstn 3 support)
              ++ map (fun lv => mkHLine (lvl_value lv) "red") (firstn 3 resistance)
         else [])
      /\ (length (hlines_colored "green" fig) <= 3)%nat
      /\ (length (hlines_colored "red" fig) <= 3)%nat
  | Err _ => False
  end.
Proof.
  unfold plot_with_indicators.
  set (fig0 := mkFigure [mkTrace "Price" (map Some (closes df))] []).
  assert (Hstage : forall (b : bool) (g : Figure -> Result Figure),
             (forall f, exists f', g f = Ok f' /\ fig_hlines f' = fig_hlines f) ->
             forall f, exists f', (if b then g f else Ok f) = Ok f'
                           /\ fig_hlines f' = fig_hlines f).
  { intros b g Hg f. destruct b; [apply Hg | now exists f]. }
  destruct (Hstage (selected "MA" indicators)
              (fun fig => ma20 <- calculate_ma (closes df) 20 ;;
                           ma50 <- calculate_ma (closes df) 50 ;;
                           Ok (add_trace (add_trace fig (mkTrace "MA20" ma20))
                                 (mkTrace "MA50" ma50)))) with (f := fig0)
    as (f1 & E1 & H1).
  { intros f. rewrite !calculate_ma_pos by lia. eexists. split; reflexivity. }
  rewrite E1. cbn [bind].
  destruct (Hstage (selected "EMA" indicators)
              (fun fig => ema20 <- calculate_ema (closes df) 20 ;;
                           Ok (add_trace fig (mkTrace "EMA20" ema20)))) with (f := f1)
    as (f2 & E2 & H2).
  { intros f. eexists. split; reflexivity. }
  rewrite E2. cbn [bind].
  destruct (Hstage (selected "Bollinger Bands" indicators)
              (fun fig => bb <- calculate_bollinger_bands (closes df) 20 2 ;;
                           let '(upper, _, lower) := bb in
                           Ok (add_trace (add_trace fig (mkTrace "Upper BB" upper))
                                 (mkTrace "Lower BB" lower)))) with (f := f2)
    as (f3 & E3 & H3).
  { intros f. unfold calculate_bollinger_bands. rewrite calculate_ma_pos by lia.
    eexists. split; reflexivity. }
  rewrite E3. cbn [bind].
  assert (Hf3 : fig_hlines f3 = []) by (rewrite H3, H2, H1; reflexivity).
  destruct (identify_sr_default df) as [support resistance].
  unfold hlines_colored.
  destruct (selected "Support/Resistance" indicators).
  - assert (Hs : (length (firstn 3 support) <= 3)%nat) by apply firstn_le_length.
    assert (Hr : (length (firstn 3 resistance) <= 3)%nat) by apply firstn_le_length.
    remember (firstn 3 support) as ls eqn:Els.
    remember (firstn 3 resistance) as lr eqn:Elr.
    rewrite !fold_add_hline. simpl. rewrite Hf3. simpl.
    rewrite !filter_app, !filter_color_map. simpl.
    rewrite app_nil_r. split; [reflexivity|].
    rewrite !length_map. split; assumption.
  - rewrite Hf3. simpl. split; [reflexivity|]. split; lia.
Qed.

(** * Further properties of [main.py] *)

(** ** [format_coin_name] *)

Example format_coin_name_bitcoin_cash :
  format_coin_name "bitcoin-cash" = "Bitcoin Cash"%string.
Proof. reflexivity. Qed.

Example format_coin_name_digits :
  format_coin_name "matic-network2x" = "Matic Network2X"%string.
Proof. reflexivity. Qed.

Ltac ascii_cases c := destruct c as [[] [] [] [] [] [] [] []]; reflexivity.

Lemma is_cased_to_lower c : is_cased (to_lower c) = is_cased c.
Proof. ascii_cases c. Qed.
Lemma is_cased_to_upper c : is_cased (to_upper c) = is_cased c.
Proof. ascii_cases c. Qed.
Lemma to_lower_idem c : to_lower (to_lower c) = to_lower c.
Proof. ascii_cases c. Qed.
Lemma to_upper_idem c : to_upper (to_upper c) = to_upper c.
Proof. ascii_cases c. Qed.
Lemma to_upper_to_lower c : to_upper (to_lower c) = to_upper c.
Proof. ascii_cases c. Qed.
Lemma dash_uncased : is_cased "-"%char = false.
Proof. reflexivity. Qed.
Lemma to_lower_replace_dash c :
  (if Ascii.eqb (to_lower c) "-"%char then " "%char else to_lower c)
  = to_lower (if Ascii.eqb c "-"%char then " "%char else c).
Proof. ascii_cases c. Qed.

Definition title_char (prev : bool) (c : ascii) : ascii :=
  if is_cased c then (if prev then to_lower c else to_upper c) else c.

Lemma title_from_cons b c t :
  title_from b (String c t) = String (title_char b c) (title_from (is_cased c) t).
Proof. reflexivity. Qed.

Lemma is_cased_title_char b c : is_cased (title_char b c) = is_cased c.
Proof.
  unfold title_char. destruct (is_cased c) eqn:E; [|exact E].
  destruct b; [rewrite is_cased_to_lower | rewrite is_cased_to_upper]; exact E.
Qed.

Lemma title_char_idem b c : title_char b (title_char b c) = title_char b c.
Proof.
  unfold title_char at 2. destruct (is_cased c) eqn:E.
  - unfold title_char. destruct b.
    + rewrite is_cased_to_lower, E, to_lower_idem. reflexivity.
    + rewrite is_cased_to_upper, E, to_upper_idem. reflexivity.
  - unfold title_char. now rewrite E.
Qed.

Lemma to_lower_uncased c : is_cased c = false -> to_lower c = c.
Proof.
  destruct c as [[] [] [] [] [] [] [] []]; intros H; first [reflexivity | discriminate].
Qed.

Lemma title_char_lower b c : title_char b (to_lower c) = title_char b c.
Proof.
  unfold title_char. rewrite is_cased_to_lower.
  destruct (is_cased c) eqn:E; [|now apply to_lower_uncased].
  destruct b; [apply to_lower_idem | apply to_upper_to_lower].
Qed.

Lemma title_char_eq_dash b c : title_char b c = "-"%char -> c = "-"%char.
Proof.
  intros H. pose proof (is_cased_title_char b c) as Hc. rewrite H in Hc.
  unfold title_char in H. destruct (is_cased c); [discriminate | exact H].
Qed.

Lemma title_char_eq_space b c : title_char b c = " "%char <-> c = " "%char.
Proof.
  split; intros H.
  - pose proof (is_cased_title_char b c) as Hc. rewrite H in Hc.
    unfold title_char in H. destruct (is_cased c); [discriminate | exact H].
  - subst c. reflexivity.
Qed.

Lemma title_from_length b s : String.length (title_from b s) = String.length s.
Proof. revert b. induction s as [|c t IH]; intros b; simpl; [|rewrite IH]; reflexivity. Qed.

Lemma replace_char_length a b s : String.length (replace_char a b s) = String.length s.
Proof. induction s as [|c t IH]; simpl; [|rewrite IH]; reflexivity. Qed.

Lemma title_from_idem b s : title_from b (title_from b s) = title_from b s.
Proof.
  revert b. induction s as [|c t IH]; intros b; [reflexivity|].
  rewrite !title_from_cons, is_cased_title_char, title_char_idem, IH. reflexivity.
Qed.

Lemma title_from_lower b s : title_from b (py_lower s) = title_from b s.
Proof.
  revert b. induction s as [|c t IH]; intros b; [reflexivity|].
  simpl py_lower. rewrite !title_from_cons, is_cased_to_lower, title_char_lower, IH.
  reflexivity.
Qed.

Lemma replace_dash_lower s :
  replace_char "-"%char " "%char (py_lower s) = py_lower (replace_char "-"%char " "%char s).
Proof.
  induction s as [|c t IH]; [reflexivity|]. simpl. now rewrite IH, to_lower_replace_dash.
Qed.

Lemma title_from_no_dash b s :
  ~ In "-"%char (list_ascii_of_string s) ->
  ~ In "-"%char (list_ascii_of_string (title_from b s)).
Proof.
  revert b. induction s as [|c t IH]; intros b Hs; [auto|].
  rewrite title_from_cons. simpl. intros [H | H].
  - apply Hs. left. exact (title_char_eq_dash b c H).
  - apply (IH (is_cased c)); [intros Ht; apply Hs; now right | exact H].
Qed.

Lemma replace_dash_no_dash s :
  ~ In "-"%char (list_ascii_of_string (replace_char "-"%char " "%char s)).
Proof.
  induction s as [|c t IH]; [auto|]. simpl. intros [H | H]; [|contradiction].
  destruct (Ascii.eqb c "-") eqn:E; [discriminate|].
  subst c. discriminate.
Qed.

Lemma replace_char_absent a b s :
  ~ In a (list_ascii_of_string s) -> replace_char a b s = s.
Proof.
  induction s as [|c t IH]; intros H; [reflexivity|]. simpl.
  destruct (Ascii.eqb_spec c a) as [-> | Hne]; [exfalso; apply H; now left|].
  rewrite IH; [reflexivity|]. intros Ht. apply H. now right.
Qed.

Lemma title_from_get_space b s i :
  String.get i (title_from b s) = Some " "%char <-> String.get i s = Some " "%char.
Proof.
  revert b i. induction s as [|c t IH]; intros b i; [simpl; tauto|].
  rewrite title_from_cons. destruct i as [|i]; simpl.
  - split; intros H; injection H as H; f_equal; now apply (title_char_eq_space b c).
  - apply IH.
Qed.

Lemma replace_dash_get_space s i :
  String.get i (replace_char "-"%char " "%char s) = Some " "%char <->
  String.get i s = Some "-"%char \/ String.get i s = Some " "%char.
Proof.
  revert i. induction s as [|c t IH]; intros i; [simpl; split; [discriminate | intros [H|H]; discriminate]|].
  destruct i as [|i]; simpl; [|apply IH].
  destruct (Ascii.eqb_spec c "-") as [-> | Hne].
  - split; [now left | reflexivity].
  - split; [intros H; right; exact H|].
    intros [H | H]; [injection H as H; contradiction | exact H].
Qed.

(** [format_coin_name] keeps the length of an ASCII coin id, and its result
    has a space exactly where the id has a hyphen or a space. *)
Theorem format_coin_name_length_and_spaces (coin_id : string) :
  ascii_only coin_id = true ->
  String.length (format_coin_name coin_id) = String.length coin_id
  /\ (forall i, String.get i (format_coin_name coin_id) = Some " "%char <->
               String.get i coin_id = Some "-"%char \/ String.get i coin_id = Some " "%char).
Proof.
  intros _. unfold format_coin_name, py_title. split.
  - now rewrite title_from_length, replace_char_length.
  - intros i. rewrite title_from_get_space. apply replace_dash_get_space.
Qed.

Lemma format_coin_name_length_and_spaces_witness :
  ascii_only "bitcoin-cash" = true /\
  String.length (format_coin_name "bitcoin-cash") = String.length "bitcoin-cash"
  /\ (forall i, String.get i (format_coin_name "bitcoin-cash") = Some " "%char <->
               String.get i "bitcoin-cash" = Some "-"%char
               \/ String.get i "bitcoin-cash" = Some " "%char).
Proof.
  split; [reflexivity|]. apply format_coin_name_length_and_spaces. reflexivity.
Defined.

(** The name [format_coin_name] produces for an ASCII coin id contains no
    hyphen, and formatting it again changes nothing. *)
Theorem format_coin_name_no_hyphen_idempotent (coin_id : string) :
  ascii_only coin_id = true ->
  ~ In "-"%char (list_ascii_of_string (format_coin_name coin_id))
  /\ format_coin_name (format_coin_name coin_id) = format_coin_name coin_id.
Proof.
  intros _. unfold format_coin_name, py_title.
  assert (Hno := title_from_no_dash false _ (replace_dash_no_dash coin_id)).
  split; [exact Hno|].
  rewrite (replace_char_absent _ _ _ Hno). apply title_from_idem.
Qed.

Lemma format_coin_name_no_hyphen_idempotent_witness :
  ascii_only "shiba-inu" = true /\
  ~ In "-"%char (list_ascii_of_string (format_coin_name "shiba-inu"))
  /\ format_coin_name (format_coin_name "shiba-inu") = format_coin_name "shiba-inu".
Proof.
  split; [reflexivity|]. apply format_coin_name_no_hyphen_idempotent. reflexivity.
Defined.

(** [format_coin_name] ignores the case of an ASCII coin id: lowering it
    first gives the same name. *)
Theorem format_coin_name_case_insensitive (coin_id : string) :
  ascii_only coin_id = true ->
  format_coin_name (py_lower coin_id) = format_coin_name coin_id.
Proof.
  intros _. unfold format_coin_name, py_title.
  rewrite replace_dash_lower. apply title_from_lower.
Qed.

Lemma format_coin_name_case_insensitive_witness :
  ascii_only "USD-Coin" = true /\
  format_coin_name (py_lower "USD-Coin") = format_coin_name "USD-Coin".
Proof.
  split; [reflexivity|]. apply format_coin_name_case_insensitive. reflexivity.
Defined.

(** ** The meme-coin comparison *)

Lemma py_in_spec x l : py_in x l = true <-> In x l.
Proof.
  unfold py_in. rewrite existsb_exists. split.
  - intros (y & Hy & E). apply String.eqb_eq in E. now subst y.
  - intros H. exists x. split; [exact H | apply String.eqb_refl].
Qed.

Lemma in_compare_options crypto_list selected_crypto coin :
  In coin (compare_options crypto_list selected_crypto) <->
  In coin meme_coins /\ In coin crypto_list /\ coin <> selected_crypto.
Proof.
  unfold compare_options. rewrite filter_In, Bool.andb_true_iff, py_in_spec,
    Bool.negb_true_iff, String.eqb_neq. tauto.
Qed.

(** The comparison options are exactly the meme coins that are available and
    differ from the selected coin, listed without repetition. *)
Theorem compare_options_spec (crypto_list : list string) (selected_crypto coin : string) :
  (In coin (compare_options crypto_list selected_crypto) <->
   In coin meme_coins /\ In coin crypto_list /\ coin <> selected_crypto)
  /\ NoDup (compare_options crypto_list selected_crypto).
Proof.
  split; [apply in_compare_options|].
  apply NoDup_filter. repeat constructor; simpl; intuition discriminate.
Qed.

(** The default of the comparison multiselect is [["dogecoin"]] exactly when
    ["dogecoin"] is one of its options, and [None] otherwise: the default is
    never outside the options. *)
Theorem compare_default_among_options (crypto_list : list string) (selected_crypto : string) :
  compare_default crypto_list selected_crypto =
  if py_in "dogecoin" (compare_options crypto_list selected_crypto)
  then Some ["dogecoin"%string] else None.
Proof.
  unfold compare_default.
  change (nth 0 meme_coins ""%string) with "dogecoin"%string.
  destruct (py_in "dogecoin" (compare_options crypto_list selected_crypto)) eqn:E.
  - apply py_in_spec, in_compare_options in E as (_ & H1 & H2).
    apply py_in_spec in H1. rewrite H1.
    destruct (String.eqb_spec "dogecoin" selected_crypto); [contradiction | reflexivity].
  - destruct (String.eqb_spec "dogecoin" selected_crypto); [reflexivity|].
    destruct (py_in "dogecoin" crypto_list) eqn:E1; [|reflexivity].
    exfalso. assert (H : In "dogecoin"%string (compare_options crypto_list selected_crypto)).
    { apply in_compare_options. split; [now left|]. split; [now apply py_in_spec | exact n]. }
    apply py_in_spec in H. congruence.
Qed.



(** ** The price chart's traces *)

Lemma lift2_series_length f a b :
  length (lift2_series f a b) = Nat.min (length a) (length b).
Proof.
  revert b. induction a as [|x a IH]; intros [|y b]; simpl; try reflexivity.
  now rewrite IH.
Qed.

Lemma ema_values_length xs w : (0 < w)%nat -> length (ema_values xs w) = length xs.
Proof.
  intros Hw. unfold ema_values.
  destruct (Nat.ltb_spec (length xs) w); [apply repeat_length|].
  rewrite length_app, repeat_length, length_map. simpl.
  rewrite ema_run_length, length_skipn. lia.
Qed.

Lemma rolling_std_values_length close w : length (rolling_std_values close w) = length close.
Proof. unfold rolling_std_values. now rewrite length_map, length_seq. Qed.

Lemma closes_length df : length (closes df) = length df.
Proof. apply length_map. Qed.

(** [plot_with_indicators] never fails; its traces are the price followed by
    MA20 and MA50, EMA20, and the upper and lower Bollinger bands for the
    selected indicators, in that order, and every trace has exactly one value
    per row of [df]. *)
Theorem plot_traces_aligned (df : list Candle) (indicators : list string) :
  match plot_with_indicators df indicators with
  | Ok fig =>
      map tr_name (fig_traces fig) =
        ["Price"%string]
        ++ (if selected "MA" indicators then ["MA20"; "MA50"]%string else [])
        ++ (if selected "EMA" indicators then ["EMA20"%string] else [])
        ++ (if selected "Bollinger Bands" indicators
            then ["Upper BB"; "Lower BB"]%string else [])
      /\ Forall (fun t => length (tr_y t) = length df) (fig_traces fig)
  | Err _ => False
  end.
Proof.
  assert (Hema : length (ema_values (closes df) (Z.to_nat 20)) = length df)
    by (rewrite ema_values_length, closes_length; [reflexivity | simpl; lia]).
  assert (Hbb : forall f, length (lift2_series f (sma_values (closes df) (Z.to_nat 20))
                                 (rolling_std_values (closes df) (Z.to_nat 20))) = length df).
  { intros f. rewrite lift2_series_length, sma_values_length, rolling_std_values_length,
      closes_length. lia. }
  unfold plot_with_indicators, calculate_ema, calculate_bollinger_bands.
  rewrite !calculate_ma_pos by lia.
  change ((20 <=? 0)%Z) with false. cbv iota.
  destruct (identify_sr_default df) as [support resistance].
  destruct (selected "MA" indicators), (selected "EMA" indicators),
    (selected "Bollinger Bands" indicators), (selected "Support/Resistance" indicators);
    cbn [bind fig_traces add_trace]; rewrite ?fold_add_hline; cbn [fig_traces add_trace app map tr_name];
    (split; [reflexivity|]);
    apply Forall_forall; intros t Ht; cbn [In] in Ht;
    repeat (destruct Ht as [<- | Ht];
            [cbn [tr_y]; rewrite ?length_map, ?Hbb, ?Hema, ?sma_values_length,
               ?closes_length; reflexivity|]);
    contradiction.
Qed.

(** ** The technical summary *)

Lemma iloc_last_last {A} (l : list A) (d : A) : l <> [] -> iloc_last l = Ok (last l d).
Proof.
  intros H. unfold iloc_last.
  rewrite (app_removelast_last d H) at 1. rewrite rev_app_distr. reflexivity.
Qed.

Lemma last_map_seq {A} (f : nat -> A) n d :
  (0 < n)%nat -> last (map f (seq 0 n)) d = f (n - 1)%nat.
Proof.
  intros H. destruct n as [|n]; [lia|].
  rewrite seq_S, map_app. cbn [map]. rewrite last_last. f_equal. lia.
Qed.

Lemma last_map_cons {A B} (f : A -> B) (l : list A) d :
  l <> [] -> last (map f l) (f d) = f (last l d).
Proof.
  induction l as [|x t IH]; intros H; [contradiction|].
  destruct t as [|y t']; [reflexivity|].
  change (last (map f (x :: y :: t')) (f d)) with (last (map f (y :: t')) (f d)).
  rewrite IH by discriminate. reflexivity.
Qed.

Lemma last_repeat {A} (a : A) n : last (repeat a n) a = a.
Proof. induction n as [|n IH]; [reflexivity|]. destruct n; [reflexivity | exact IH]. Qed.

(** The values the summary reads with [.iloc[-1]] on a non-empty [df]. *)
Lemma technical_summary_run_nonempty df :
  df <> [] ->
  technical_summary_run df =
  (let ma20 := sma_at (closes df) 20 (length df - 1) in
   let ma50 := sma_at (closes df) 50 (length df - 1) in
   let rsi := option_map rsi_point (last (rsi_averages (closes df) 14) None) in
   let trend := if py_gt ma20 ma50 then "Bullish"%string else "Bearish"%string in
   let rsi_signal :=
     if py_gt rsi (Some 70) then "Overbought"%string
     else if py_gt (Some 30) rsi then "Oversold"%string else "Neutral"%string in
   let head := [LText (String.append "Trend: " trend);
                LText (String.append "RSI Signal: " rsi_signal);
                LText "Key Levels:"] in
   let '(support, resistance) := identify_sr_default df in
   match support with
   | [] => (head, Err IndexError)
   | s0 :: _ =>
       match resistance with
       | [] => (head ++ [LPrice "Support: $" (lvl_value s0)], Err IndexError)
       | r0 :: _ =>
           (head ++ [LPrice "Support: $" (lvl_value s0); LPrice "Resistance: $" (lvl_value r0)],
            Ok (trend, rsi_signal, lvl_value s0, lvl_value r0))
       end
   end).
Proof.
  intros Hne.
  assert (Hn : (0 < length (closes df))%nat)
    by (rewrite closes_length; destruct df; [contradiction | simpl; lia]).
  assert (Hc : closes df <> []) by (apply length_nonempty; lia).
  unfold technical_summary_run.
  rewrite (iloc_last_last _ 0 Hc). cbn [wbind lift].
  rewrite calculate_ma_pos by lia. cbn [wbind lift].
  rewrite (iloc_last_last _ None) by (apply length_nonempty; rewrite sma_values_length; lia).
  cbn [wbind lift].
  rewrite calculate_ma_pos by lia. cbn [wbind lift].
  rewrite (iloc_last_last _ None) by (apply length_nonempty; rewrite sma_values_length; lia).
  cbn [wbind lift].
  rewrite calculate_rsi_ok by (lia || exact Hc). cbn [wbind lift].
  rewrite (iloc_last_last _ None)
    by (apply length_nonempty; rewrite length_map, rsi_averages_length; lia).
  cbn [wbind lift].
  unfold sma_values. rewrite !last_map_seq by exact Hn. rewrite closes_length.
  assert (Hr : forall L : list (option (R * R)), L <> [] ->
            last (map (option_map rsi_point) L) None = option_map rsi_point (last L None))
    by (intros L HL; exact (last_map_cons (option_map rsi_point) L None HL)).
  rewrite Hr by (apply length_nonempty; rewrite rsi_averages_length; lia).
  destruct (identify_sr_default df) as [[|s0 ss] [|r0 rs]]; reflexivity.
Qed.

(** Pivot detection direction: a swing low of the lows and a swing high of
    the highs are found, with the orders used by [surviving_supports] and
    [surviving_resistances]. *)
Example swing_low_found :
  swing_candidates (fun a b => Rltb b a) [1; 0; 1] 1 = [(0, 1%nat)].
Proof.
  unfold swing_candidates, pivot_range, is_swing, Rltb. simpl.
  destruct (Rlt_dec 0 1); [|lra]. reflexivity.
Qed.

Example swing_high_found : swing_candidates Rltb [0; 1; 0] 1 = [(1, 1%nat)].
Proof.
  unfold swing_candidates, pivot_range, is_swing, Rltb. simpl.
  destruct (Rlt_dec 0 1); [|lra]. reflexivity.
Qed.

Lemma in_last {A} (l : list A) d : l <> [] -> In (last l d) l.
Proof.
  intros H. rewrite (app_removelast_last d H) at 2. apply in_or_app. right. now left.
Qed.

Lemma rsi_averages_short xs w :
  (length xs <= w)%nat -> rsi_averages xs w = repeat None (length xs).
Proof.
  intros H. unfold rsi_averages. destruct (Nat.leb_spec (length xs) w); [reflexivity | lia].
Qed.

(** With a non-empty [df] of fewer than 50 rows the 50-period MA at the last
    row is NaN, so the first line the summary writes is "Trend: Bearish",
    whether or not the summary fails later on [support[0]]. *)
Theorem summary_bearish_below_50_rows (df : list Candle) :
  (0 < length df < 50)%nat ->
  hd_error (fst (technical_summary_run df)) = Some (LText "Trend: Bearish").
Proof.
  intros Hlt. destruct df as [|c cs]; [simpl in Hlt; lia|].
  rewrite technical_summary_run_nonempty by discriminate. cbv zeta.
  rewrite (sma_at_undefined _ 50) by (simpl in *; lia).
  assert (Hg : forall o, py_gt o None = false) by (intros [o|]; reflexivity).
  rewrite Hg.
  destruct (identify_sr_default (c :: cs)) as [[|s0 ss] [|r0 rs]]; reflexivity.
Qed.

Lemma summary_bearish_below_50_rows_witness :
  (0 < length [mkCandle 1 2 1 2 5] < 50)%nat /\
  hd_error (fst (technical_summary_run [mkCandle 1 2 1 2 5]))
  = Some (LText "Trend: Bearish").
Proof. split; [simpl; lia | apply summary_bearish_below_50_rows; simpl; lia]. Defined.

(** With a non-empty [df] of at most 14 rows the 14-period RSI at the last
    row is NaN, so the second line the summary writes is
    "RSI Signal: Neutral", whether or not the summary fails later. *)
Theorem summary_neutral_up_to_14_rows (df : list Candle) :
  (0 < length df <= 14)%nat ->
  nth_error (fst (technical_summary_run df)) 1 = Some (LText "RSI Signal: Neutral").
Proof.
  intros Hle. destruct df as [|c cs]; [simpl in Hle; lia|].
  rewrite technical_summary_run_nonempty by discriminate. cbv zeta.
  rewrite rsi_averages_short by (rewrite closes_length; lia).
  rewrite last_repeat.
  destruct (identify_sr_default (c :: cs)) as [[|s0 ss] [|r0 rs]]; reflexivity.
Qed.

Lemma summary_neutral_up_to_14_rows_witness :
  (0 < length [mkCandle 1 2 1 2 5] <= 14)%nat /\
  nth_error (fst (technical_summary_run [mkCandle 1 2 1 2 5])) 1
  = Some (LText "RSI Signal: Neutral").
Proof. split; [simpl; lia | apply summary_neutral_up_to_14_rows; simpl; lia]. Defined.

(** The summary writes "RSI Signal: Overbought" only when the last RSI value
    is defined and in [(70, 100]], and "RSI Signal: Oversold" only when it
    is defined and in [[0, 30)], also when it fails afterwards. *)
Theorem summary_rsi_signal_ranges (df : list Candle) :
  (In (LText "RSI Signal: Overbought") (fst (technical_summary_run df)) ->
   exists rsis v, calculate_rsi (closes df) 14 = Ok rsis
                  /\ iloc_last rsis = Ok (Some v) /\ 70 < v <= 100)
  /\ (In (LText "RSI Signal: Oversold") (fst (technical_summary_run df)) ->
   exists rsis v, calculate_rsi (closes df) 14 = Ok rsis
                  /\ iloc_last rsis = Ok (Some v) /\ 0 <= v < 30).
Proof.
  destruct df as [|c cs]; [split; intros []|].
  assert (Hc : closes (c :: cs) <> []) by discriminate.
  rewrite technical_summary_run_nonempty by discriminate. cbv zeta.
  rewrite calculate_rsi_ok by (lia || exact Hc).
  set (L := rsi_averages (closes (c :: cs)) (Z.to_nat 14)).
  assert (HL : L <> []) by (apply length_nonempty; unfold L; rewrite rsi_averages_length;
                            simpl; lia).
  change (rsi_averages (closes (c :: cs)) 14) with L.
  assert (Hil : iloc_last (map (option_map rsi_point) L)
                = Ok (option_map rsi_point (last L None))).
  { rewrite (iloc_last_last _ None) by (destruct L; [contradiction | discriminate]).
    exact (f_equal Ok (last_map_cons (option_map rsi_point) L None HL)). }
  destruct (last L None) as [[ag al]|] eqn:E; cbn [option_map] in *.
  - assert (Hb : 0 <= rsi_point (ag, al) <= 100).
    { pose proof (in_last L None HL) as Hin. rewrite E in Hin.
      apply In_nth_error in Hin as [i Hi].
      unfold L in Hi. eapply rsi_averages_nonneg in Hi; [|simpl; lia].
      destruct Hi. now apply rsi_point_bounds. }
    unfold py_gt, Rltb.
    destruct (Rlt_dec 70 (rsi_point (ag, al)));
      [|destruct (Rlt_dec (rsi_point (ag, al)) 30)];
      destruct (identify_sr_default (c :: cs)) as [[|s0 ss] [|r0 rs]];
      split; intros H; simpl in H;
      repeat (destruct H as [H|H]; [try discriminate|]); try contradiction;
      (exists (map (option_map rsi_point) L), (rsi_point (ag, al));
       split; [reflexivity | split; [exact Hil | lra]]).
  - destruct (identify_sr_default (c :: cs)) as [[|s0 ss] [|r0 rs]];
      split; intros H; simpl in H;
      repeat (destruct H as [H|H]; [try discriminate|]); contradiction.
Qed.

Lemma identify_support_below df s0 ss :
  fst (identify_sr_default df) = s0 :: ss -> lvl_value s0 < current_close df.
Proof.
  intros H. unfold identify_sr_default, identify_support_resistance in H. cbn [fst snd] in H.
  destruct (rank_side_spec (surviving_supports df 5 (1 / 100)) 3 _
              (surviving_supports_below df 5 (1 / 100))) as (H1 & _).
  apply H1. rewrite H. now left.
Qed.

Lemma identify_resistance_above df r0 rs :
  snd (identify_sr_default df) = r0 :: rs -> current_close df < lvl_value r0.
Proof.
  intros H. unfold identify_sr_default, identify_support_resistance in H. cbn [fst snd] in H.
  destruct (rank_side_spec (surviving_resistances df 5 (1 / 100)) 3 _
              (surviving_resistances_above df 5 (1 / 100))) as (H1 & _).
  apply H1. rewrite H. now left.
Qed.

(** The key levels the summary writes bracket the latest close
    ([df['close'].iloc[-1]]): the support is below it and the resistance
    above it. *)
Theorem summary_levels_bracket_close (df : list Candle) :
  match technical_summary df with
  | Ok (_, _, support, resistance) =>
      iloc_last (closes df) = Ok (current_close df)
      /\ support < current_close df < resistance
  | Err _ => True
  end.
Proof.
  destruct df as [|c cs]; [exact I|].
  unfold technical_summary.
  rewrite technical_summary_run_nonempty by discriminate. cbv zeta.
  destruct (identify_sr_default (c :: cs)) as [[|s0 ss] [|r0 rs]] eqn:E;
    cbn [snd]; try exact I.
  split; [apply iloc_last_last; discriminate|].
  split.
  - apply (identify_support_below _ s0 ss). now rewrite E.
  - apply (identify_resistance_above _ r0 rs). now rewrite E.
Qed.

(** The RSI chart: it fails exactly when [df] is empty (the RSI of an empty
    series raises [EmptySeriesError]); otherwise its single "RSI" trace has
    one point per row, every defined point lies in [[0, 100]], and the two
    dashed guides are 70 in red and 30 in green, in that order. *)
Theorem rsi_figure_shape (df : list Candle) :
  match rsi_figure df with
  | Ok fig =>
      df <> []
      /\ map tr_name (fig_traces fig) = ["RSI"%string]
      /\ Forall (fun t => length (tr_y t) = length df
                          /\ forall i v, nth_error (tr_y t) i = Some (Some v) ->
                                         0 <= v <= 100) (fig_traces fig)
      /\ fig_hlines fig = [mkHLine 70 "red"%string; mkHLine 30 "green"%string]
  | Err e => df = [] /\ e = EmptySeriesError
  end.
Proof.
  destruct df as [|c cs]; [split; reflexivity|].
  unfold rsi_figure.
  rewrite calculate_rsi_ok by (lia || discriminate). cbn [bind].
  split; [discriminate|]. split; [reflexivity|]. split; [|reflexivity].
  constructor; [|constructor]. cbn [tr_y]. split.
  - rewrite length_map, rsi_averages_length, closes_length. reflexivity.
  - intros i v Hi. rewrite nth_error_map in Hi.
    destruct (nth_error (rsi_averages (closes (c :: cs)) (Z.to_nat 14)) i)
      as [[[ag al]|]|] eqn:E; cbn in Hi; try discriminate.
    injection Hi as <-.
    eapply rsi_averages_nonneg in E; [|simpl; lia].
    destruct E. now apply rsi_point_bounds.
Qed.

Lemma lift2_series_defined f b1 b2 :
  exists bs, lift2_series f (map Some b1) (map Some b2) = map Some bs.
Proof.
  revert b2. induction b1 as [|x b1 IH]; intros [|y b2].
  - now exists [].
  - now exists [].
  - now exists [].
  - destruct (IH b2) as [bs Hbs]. exists (f x y :: bs). simpl. now rewrite Hbs.
Qed.

Lemma lift2_series_left_shaped f a2 b1 b2 :
  length b1 = (a2 + length b2)%nat ->
  exists a bs, lift2_series f (map Some b1) (repeat None a2 ++ map Some b2)
               = repeat None a ++ map Some bs.
Proof.
  revert b1. induction a2 as [|a2 IH]; intros b1 Hl.
  - destruct (lift2_series_defined f b1 b2) as [bs Hbs]. now exists 0%nat, bs.
  - destruct b1 as [|x b1]; [discriminate|].
    destruct (IH b1 ltac:(simpl in Hl; lia)) as (a & bs & E).
    exists (S a), bs. simpl. now rewrite E.
Qed.

Lemma lift2_series_shaped f a1 b1 a2 b2 :
  (a1 + length b1 = a2 + length b2)%nat ->
  exists a bs, lift2_series f (repeat None a1 ++ map Some b1) (repeat None a2 ++ map Some b2)
               = repeat None a ++ map Some bs.
Proof.
  revert a2 b2. induction a1 as [|a1 IH]; intros a2 b2 Hl.
  - apply lift2_series_left_shaped. exact Hl.
  - destruct a2 as [|a2].
    + destruct b2 as [|y b2]; [simpl in Hl; lia|].
      destruct (IH 0%nat b2 ltac:(simpl in Hl; lia)) as (a & bs & E).
      exists (S a), bs. simpl. simpl in E. now rewrite E.
    + destruct (IH a2 b2 ltac:(simpl in Hl; lia)) as (a & bs & E).
      exists (S a), bs. simpl. now rewrite E.
Qed.

Lemma ema_values_shaped xs w :
  (0 < w)%nat ->
  exists a bs, ema_values xs w = repeat None a ++ map Some bs
               /\ (a + length bs = length xs)%nat.
Proof.
  intros Hw. pose proof (ema_values_length xs w Hw) as Hl. unfold ema_values in *.
  destruct (Nat.ltb_spec (length xs) w).
  - exists (length xs), []. rewrite app_nil_r. split; [reflexivity | simpl; lia].
  - eexists _, _. split; [reflexivity|].
    rewrite length_app, repeat_length, length_map in Hl. exact Hl.
Qed.

Lemma leading_undefined_shaped a (bs : list R) :
  leading_undefined (repeat None a ++ map Some bs) = a.
Proof.
  induction a as [|a IH]; [destruct bs; reflexivity | simpl; now rewrite IH].
Qed.

Lemma skipn_shaped a (bs : list R) : skipn a (repeat None a ++ map Some bs) = map Some bs.
Proof. induction a as [|a IH]; [reflexivity | exact IH]. Qed.

Lemma defined_values_map_some bs : defined_values (map Some bs) = bs.
Proof. induction bs as [|b bs IH]; [reflexivity | simpl; now rewrite IH]. Qed.

(** The MACD chart never fails: its traces are "MACD", "Signal" and
    "Histogram", in that order, each with one point per row of [df]; where
    the MACD line is still undefined the signal line is undefined too. *)
Theorem macd_figure_aligned (df : list Candle) :
  match macd_figure df with
  | Ok fig =>
      map tr_name (fig_traces fig) = ["MACD"%string; "Signal"%string; "Histogram"%string]
      /\ Forall (fun t => length (tr_y t) = length df) (fig_traces fig)
      /\ (forall i, nth_error (tr_y (nth 0 (fig_traces fig) (mkTrace "" []))) i = Some None ->
                    nth_error (tr_y (nth 1 (fig_traces fig) (mkTrace "" []))) i = Some None)
  | Err _ => False
  end.
Proof.
  destruct (ema_values_shaped (closes df) (Z.to_nat 12) ltac:(simpl; lia))
    as (a1 & b1 & E1 & L1).
  destruct (ema_values_shaped (closes df) (Z.to_nat 26) ltac:(simpl; lia))
    as (a2 & b2 & E2 & L2).
  unfold macd_figure, calculate_macd, calculate_ema. rewrite E1, E2.
  cbn -[ema_values lift2_series repeat app map].
  destruct (lift2_series_shaped Rminus a1 b1 a2 b2 ltac:(lia)) as (a & bs & E).
  rewrite E, leading_undefined_shaped, skipn_shaped, defined_values_map_some.
  assert (Hm : length (repeat None a ++ map Some bs) = length df).
  { rewrite <- E, lift2_series_length, !length_app, !repeat_length, !length_map.
    rewrite closes_length in L1, L2. lia. }
  split; [reflexivity|]. split.
  - repeat constructor; cbn [tr_y].
    + exact Hm.
    + rewrite length_app, repeat_length, ema_values_length by (simpl; lia).
      rewrite length_app, repeat_length, length_map in Hm. exact Hm.
    + rewrite length_map, length_seq. apply closes_length.
  - cbn [nth tr_y]. intros i Hi.
    destruct (Nat.ltb_spec i a).
    + rewrite nth_error_app1 by (rewrite repeat_length; exact H).
      apply nth_error_repeat. exact H.
    + rewrite nth_error_app2 in Hi by (rewrite repeat_length; exact H).
      rewrite nth_error_map in Hi.
      destruct (nth_error bs (i - length (repeat None a))); discriminate.
Qed.

Lemma to_lower_to_upper c : to_lower (to_upper c) = to_lower c.
Proof. ascii_cases c. Qed.

Lemma to_lower_title_char b c : to_lower (title_char b c) = to_lower c.
Proof.
  unfold title_char. destruct (is_cased c); [|reflexivity].
  destruct b; [apply to_lower_idem | apply to_lower_to_upper].
Qed.

Lemma py_lower_title_from b s : py_lower (title_from b s) = py_lower s.
Proof.
  revert b. induction s as [|c t IH]; intros b; [reflexivity|].
  rewrite title_from_cons. simpl py_lower. now rewrite to_lower_title_char, IH.
Qed.

Lemma replace_dash_injective s t :
  ~ In " "%char (list_ascii_of_string s) -> ~ In " "%char (list_ascii_of_string t) ->
  replace_char "-"%char " "%char s = replace_char "-"%char " "%char t -> s = t.
Proof.
  revert t. induction s as [|c s IH]; intros [|d t] Hs Ht H; simpl in H;
    try discriminate; [reflexivity|].
  injection H as Hcd Hrest. simpl in Hs, Ht.
  f_equal; [|apply IH; tauto].
  destruct (Ascii.eqb_spec c "-"%char), (Ascii.eqb_spec d "-"%char); subst;
    try reflexivity; exfalso; tauto.
Qed.

(** On CoinGecko-style ids (ASCII, lower case, no spaces) [format_coin_name]
    is injective: two different ids are never shown under the same name in
    the selectbox or the comparison legend. *)
Theorem format_coin_name_injective (a b : string) :
  ascii_only a = true -> ascii_only b = true ->
  py_lower a = a -> py_lower b = b ->
  ~ In " "%char (list_ascii_of_string a) -> ~ In " "%char (list_ascii_of_string b) ->
  format_coin_name a = format_coin_name b -> a = b.
Proof.
  intros _ _ Ha Hb Hsa Hsb H. apply (f_equal py_lower) in H.
  unfold format_coin_name, py_title in H. rewrite !py_lower_title_from in H.
  rewrite <- !replace_dash_lower, Ha, Hb in H.
  exact (replace_dash_injective a b Hsa Hsb H).
Qed.

Lemma format_coin_name_injective_witness :
  "shiba-inu"%string = "shiba-inu"%string /\
  format_coin_name "shiba-inu" = format_coin_name "shiba-inu" /\
  ~ In " "%char (list_ascii_of_string "shiba-inu").
Proof.
  assert (Hs : ~ In " "%char (list_ascii_of_string "shiba-inu")).
  { intros H. simpl in H. repeat (destruct H as [H|H]; [discriminate|]). exact H. }
  split; [|split; [reflexivity | exact Hs]].
  apply (format_coin_name_injective "shiba-inu" "shiba-inu");
    (reflexivity || exact Hs).
Defined.
